(** * Capital Jeopardy: the search pipeline of [App] and the [Category] card

    A shallow embedding of the two React components of the repository:
    - [App] (constructor, [searchClues], [onSearch]): the state restored at
      startup, the clues query, and the loop that turns the scraped category
      ids into the list of category records;
    - [Category] ([markClue], [isFavorite], [getHint], [render]).

    Strings are sequences of UTF-16 code units, as in JavaScript.  The network,
    the clock and the browser storage are explicit: a [Host] answers the
    requests of one search, and a [World] holds the component state, the
    storage slot and the list of requests issued so far.

    What the engine and React provide is modelled as documented:
    - [Array.prototype.sort] as a stable sort (ECMAScript 2019);
    - [JSON.parse] by the JSON grammar, a syntax error being [None]; a
      number is zero when its literal rounds to the double 0, and an object
      lists its properties as the engine does, array indices first;
    - [localStorage.setItem] as taking the text or throwing (a full
      storage), which the [Host] decides;
    - the sum of clue values as the sum of doubles that are integers;
    - [setState] as taking effect before the statement after it runs, which
      is how React applies it outside a batched event handler and what
      [onSearch] relies on when it stores [this.state];
    - one search at a time: no other event is handled while [onSearch]
      waits for a request. *)

From Stdlib Require Import ZArith NArith String Ascii DecimalString.
From stdpp Require Import base decidable option list numbers sorting gmap.

Local Open Scope Z_scope.

(** ** Strings *)

(** A string is the list of its UTF-16 code units. *)
Abbreviation code_unit := N (only parsing).
Abbreviation jsstring := (list N) (only parsing).

(** A literal of the source, code unit by code unit. *)
Definition lit (s : string) : jsstring := N_of_ascii <$> list_ascii_of_string s.

Arguments lit : simpl never.

(** [Array.prototype.join]. *)
Fixpoint join (sep : jsstring) (parts : list jsstring) : jsstring :=
  match parts with
  | [] => []
  | [p] => p
  | p :: rest => p ++ sep ++ join sep rest
  end.

(** [\d] *)
Definition is_digit (c : code_unit) : bool := ((48 <=? c) && (c <=? 57))%N.

Fixpoint strip_prefix (p s : jsstring) : option jsstring :=
  match p, s with
  | [], _ => Some s
  | a :: p', b :: s' => if bool_decide (a = b) then strip_prefix p' s' else None
  | _ :: _, [] => None
  end.

Fixpoint take_digits (s : jsstring) : jsstring :=
  match s with
  | c :: s' => if is_digit c then c :: take_digits s' else []
  | [] => []
  end.

(** ** Clues *)

(** A property that holds a number, [null], or is not there at all. *)
Inductive JsValue :=
  | undefined
  | null
  | Num (n : Z).

#[global] Instance JsValue_eq_dec : EqDecision JsValue.
Proof. solve_decision. Defined.

(** One clue object of the clues endpoint. *)
Record Clue := mkClue {
  clue_id : Z;
  question : jsstring;
  answer : jsstring;
  value : JsValue;
  category_title : jsstring;
  airdate : jsstring
}.

#[global] Instance Clue_eq_dec : EqDecision Clue.
Proof. solve_decision. Defined.

(** [clue.value = v] *)
Definition set_value (clue : Clue) (v : JsValue) : Clue :=
  {| clue_id := clue_id clue; question := question clue; answer := answer clue;
     value := v; category_title := category_title clue; airdate := airdate clue |}.

(** Truthiness of a value property: [undefined], [null] and [0] are falsy. *)
Definition truthy (v : JsValue) : bool :=
  match v with
  | Num n => negb (n =? 0)
  | _ => false
  end.

(** [ToNumber]; [None] is NaN. *)
Definition ToNumber (v : JsValue) : option Z :=
  match v with
  | undefined => None
  | null => Some 0
  | Num n => Some n
  end.

(** [a - b] on value properties; [None] is NaN. *)
Definition js_sub (a b : JsValue) : option Z :=
  match ToNumber a, ToNumber b with
  | Some x, Some y => Some (x - y)
  | _, _ => None
  end.

(** ** JSON *)

Module JSON.

(** A JavaScript value as far as a snapshot can hold one.  A number is kept
    as its literal: the number is the double nearest to what the literal
    writes. *)
#[warnings="-register-all"]
Inductive Val :=
  | VUndefined
  | VNull
  | VBool (b : bool)
  | VNumber (literal : jsstring)
  | VString (s : jsstring)
  | VArray (elements : list Val)
  | VObject (members : list (jsstring * Val)).

(** The number a sequence of digits writes. *)
Definition digits_value (ds : jsstring) : Z :=
  foldl (λ acc c, acc * 10 + (Z.of_N c - 48)) 0 ds.

(** A property key that is an array index: a decimal with no leading zero,
    below 2^32 - 1.  An object lists such keys first, by number; the other
    keys follow in the order they were added. *)
Definition array_index (key : jsstring) : option Z :=
  match key with
  | [] => None
  | c :: _ =>
      if forallb is_digit key
         && (bool_decide (key = [48%N]) || negb (bool_decide (c = 48%N)))
         && (length key <=? 10)%nat
         && (digits_value key <? 2 ^ 32 - 1)
      then Some (digits_value key)
      else None
  end.

Definition has_key (key : jsstring) (members : list (jsstring * Val)) : bool :=
  existsb (λ m, bool_decide (m.1 = key)) members.

(** [obj[key] = v] for a key the object has: the property keeps its place. *)
Fixpoint obj_replace (key : jsstring) (v : Val) (members : list (jsstring * Val))
    : list (jsstring * Val) :=
  match members with
  | [] => []
  | (k, v') :: rest =>
      if bool_decide (k = key) then (k, v) :: rest
      else (k, v') :: obj_replace key v rest
  end.

(** [obj[key] = v] for a key the object has not: an array index goes where
    its number puts it among the indices, another key goes last. *)
Fixpoint obj_add (key : jsstring) (v : Val) (members : list (jsstring * Val))
    : list (jsstring * Val) :=
  match members with
  | [] => [(key, v)]
  | (k, v') :: rest =>
      match array_index key, array_index k with
      | Some i, Some j =>
          if i <? j then (key, v) :: (k, v') :: rest
          else (k, v') :: obj_add key v rest
      | Some _, None => (key, v) :: (k, v') :: rest
      | None, _ => (k, v') :: obj_add key v rest
      end
  end.

(** [obj[key] = v] *)
Definition obj_set (key : jsstring) (v : Val) (members : list (jsstring * Val))
    : list (jsstring * Val) :=
  if has_key key members then obj_replace key v members else obj_add key v members.

(** JSON white space. *)
Definition is_ws (c : code_unit) : bool :=
  bool_decide (c = 32%N ∨ c = 9%N ∨ c = 10%N ∨ c = 13%N).

Fixpoint skip_ws (s : jsstring) : jsstring :=
  match s with
  | c :: s' => if is_ws c then skip_ws s' else s
  | [] => []
  end.

Definition hex_digit (c : code_unit) : option N :=
  if ((48 <=? c) && (c <=? 57))%N then Some (c - 48)%N
  else if ((65 <=? c) && (c <=? 70))%N then Some (c - 55)%N
  else if ((97 <=? c) && (c <=? 102))%N then Some (c - 87)%N
  else None.

(** A one-letter escape of a JSON string. *)
Definition escape (c : code_unit) : option code_unit :=
  if bool_decide (c = 34%N) then Some 34%N          (* quote *)
  else if bool_decide (c = 92%N) then Some 92%N     (* backslash *)
  else if bool_decide (c = 47%N) then Some 47%N     (* slash *)
  else if bool_decide (c = 98%N) then Some 8%N      (* b: backspace *)
  else if bool_decide (c = 102%N) then Some 12%N    (* f: form feed *)
  else if bool_decide (c = 110%N) then Some 10%N    (* n: line feed *)
  else if bool_decide (c = 114%N) then Some 13%N    (* r: carriage return *)
  else if bool_decide (c = 116%N) then Some 9%N     (* t: tab *)
  else None.

(** The rest of a JSON string after its opening quote: the string and what
    follows the closing quote. *)
Fixpoint parse_string (s : jsstring) (acc : jsstring) : option (jsstring * jsstring) :=
  match s with
  | [] => None
  | c :: s' =>
      if bool_decide (c = 34%N) then Some (rev acc, s')
      else if bool_decide (c = 92%N) then
        match s' with
        | [] => None
        | e :: s'' =>
            if bool_decide (e = 117%N) then
              match s'' with
              | h1 :: h2 :: h3 :: h4 :: s''' =>
                  match hex_digit h1, hex_digit h2, hex_digit h3, hex_digit h4 with
                  | Some a, Some b, Some c', Some d =>
                      parse_string s''' ((((a * 16 + b) * 16 + c') * 16 + d)%N :: acc)
                  | _, _, _, _ => None
                  end
              | _ => None
              end
            else
              match escape e with
              | Some x => parse_string s'' (x :: acc)
              | None => None
              end
        end
      else if (c <? 32)%N then None
      else parse_string s' (c :: acc)
  end.

(** [digits+] at the head of [s]. *)
Definition parse_digits (s : jsstring) : option (jsstring * jsstring) :=
  match take_digits s with
  | [] => None
  | ds => Some (ds, drop (length ds) s)
  end.

(** A JSON number at the head of [s]: its literal and the rest. *)
Definition parse_number (s : jsstring) : option (jsstring * jsstring) :=
  let '(sign, s1) :=
    match s with
    | 45%N :: r => ([45%N], r)
    | _ => ([], s)
    end in
  let int_part :=
    match s1 with
    | 48%N :: r => Some ([48%N], r)
    | _ => parse_digits s1
    end in
  match int_part with
  | None => None
  | Some (i, s2) =>
      let frac_part :=
        match s2 with
        | 46%N :: r =>
            match parse_digits r with
            | Some (ds, r') => Some (46%N :: ds, r')
            | None => None
            end
        | _ => Some ([], s2)
        end in
      match frac_part with
      | None => None
      | Some (f, s3) =>
          let exp_part :=
            match s3 with
            | e :: r =>
                if bool_decide (e = 101%N ∨ e = 69%N) then
                  let '(esign, r1) :=
                    match r with
                    | x :: r' =>
                        if bool_decide (x = 43%N ∨ x = 45%N) then ([x], r') else ([], r)
                    | [] => ([], r)
                    end in
                  match parse_digits r1 with
                  | Some (ds, r2) => Some (e :: esign ++ ds, r2)
                  | None => None
                  end
                else Some ([], s3)
            | [] => Some ([], s3)
            end in
          match exp_part with
          | None => None
          | Some (x, s4) => Some (sign ++ i ++ f ++ x, s4)
          end
      end
  end.

Definition parse_keyword (word : string) (v : Val) (s : jsstring) : option (Val * jsstring) :=
  match strip_prefix (lit word) s with
  | Some r => Some (v, r)
  | None => None
  end.

(** The JSON grammar by recursive descent; [fuel] bounds the calls. *)
Fixpoint parse_value (fuel : nat) (s : jsstring) : option (Val * jsstring) :=
  match fuel with
  | O => None
  | S fuel =>
      match skip_ws s with
      | [] => None
      | c :: r =>
          if bool_decide (c = 110%N) then parse_keyword "null" VNull (c :: r)
          else if bool_decide (c = 116%N) then parse_keyword "true" (VBool true) (c :: r)
          else if bool_decide (c = 102%N) then parse_keyword "false" (VBool false) (c :: r)
          else if bool_decide (c = 34%N) then
            match parse_string r [] with
            | Some (str, r') => Some (VString str, r')
            | None => None
            end
          else if bool_decide (c = 91%N) then
            match skip_ws r with
            | 93%N :: r' => Some (VArray [], r')
            | _ => parse_elements fuel r []
            end
          else if bool_decide (c = 123%N) then
            match skip_ws r with
            | 125%N :: r' => Some (VObject [], r')
            | _ => parse_members fuel r []
            end
          else
            match parse_number (c :: r) with
            | Some (n, r') => Some (VNumber n, r')
            | None => None
            end
      end
  end
with parse_elements (fuel : nat) (s : jsstring) (acc : list Val) : option (Val * jsstring) :=
  match fuel with
  | O => None
  | S fuel =>
      match parse_value fuel s with
      | Some (v, r) =>
          match skip_ws r with
          | 44%N :: r' => parse_elements fuel r' (v :: acc)
          | 93%N :: r' => Some (VArray (rev (v :: acc)), r')
          | _ => None
          end
      | None => None
      end
  end
with parse_members (fuel : nat) (s : jsstring) (acc : list (jsstring * Val))
    : option (Val * jsstring) :=
  match fuel with
  | O => None
  | S fuel =>
      match skip_ws s with
      | 34%N :: r =>
          match parse_string r [] with
          | Some (key, r1) =>
              match skip_ws r1 with
              | 58%N :: r2 =>
                  match parse_value fuel r2 with
                  | Some (v, r3) =>
                      match skip_ws r3 with
                      | 44%N :: r4 => parse_members fuel r4 (obj_set key v acc)
                      | 125%N :: r4 => Some (VObject (obj_set key v acc), r4)
                      | _ => None
                      end
                  | None => None
                  end
              | _ => None
              end
          | None => None
          end
      | _ => None
      end
  end.

(** [JSON.parse(text)]; [None]: it throws a SyntaxError. *)
Definition parse (text : jsstring) : option Val :=
  match parse_value (2 * length text + 2) text with
  | Some (v, r) => match skip_ws r with [] => Some v | _ => None end
  | None => None
  end.

(** What a number literal writes: [m * 10 ^ e] for the pair [(m, e)] given,
    the sign left out. *)
Definition literal_decimal (literal : jsstring) : Z * Z :=
  let s := match literal with 45%N :: r => r | _ => literal end in
  let i := take_digits s in
  let s1 := drop (length i) s in
  let '(f, s2) :=
    match s1 with
    | 46%N :: r => (take_digits r, drop (length (take_digits r)) r)
    | _ => ([], s1)
    end in
  let x :=
    match s2 with
    | _ :: 45%N :: ds => - digits_value ds
    | _ :: 43%N :: ds => digits_value ds
    | _ :: ds => digits_value ds
    | [] => 0
    end in
  (digits_value (i ++ f), x - Z.of_nat (length f)).

(** The double nearest to what the literal writes is zero: the literal
    writes 0, or a number that is at most 2^-1075, half the least double
    above 0 (the tie goes to 0, the even one). *)
Definition rounds_to_zero (literal : jsstring) : bool :=
  let '(m, e) := literal_decimal literal in
  (m =? 0) || ((e <? 0) && (m * 2 ^ 1075 <=? 10 ^ (- e))).

(** A code unit a JSON value can start with. *)
Definition value_start (c : code_unit) : bool :=
  bool_decide (c ∈ [123; 91; 34; 45; 116; 102; 110]%N) || is_digit c.

(** [if (v)] *)
Definition truthy_val (v : Val) : bool :=
  match v with
  | VUndefined | VNull => false
  | VBool b => b
  | VNumber n => negb (rounds_to_zero n)
  | VString s => negb (bool_decide (s = []))
  | VArray _ | VObject _ => true
  end.

(** JSON texts of falsy values: [null], [false], zeros, a number below the
    least double, the empty string. *)
Definition falsy_texts : list jsstring :=
  [lit "null"; lit "false"; lit "0"; lit "-0"; lit "0.0"; lit "1e-400"; [34; 34]%N].

(** The decimal name of an index. *)
Definition index_key (i : nat) : jsstring :=
  lit (NilZero.string_of_uint (Nat.to_uint i)).

(** [{...v}]: the own enumerable properties of [v]. *)
Definition spread (v : Val) : list (jsstring * Val) :=
  match v with
  | VObject members => members
  | VArray elements => imap (λ i x, (index_key i, x)) elements
  | VString s => imap (λ i c, (index_key i, VString [c])) s
  | _ => []
  end.

End JSON.

Import JSON.

(** *** Clues as snapshot values *)

(** A value property of a clue as a snapshot value. *)
Definition Val_of_JsValue (v : JsValue) : Val :=
  match v with
  | undefined => VUndefined
  | null => VNull
  | Num n => VNumber (lit (NilZero.string_of_int (Z.to_int n)))
  end.

Definition Val_of_date (d : option jsstring) : Val :=
  match d with
  | None => VUndefined
  | Some s => VString s
  end.

Definition Val_of_Clue (c : Clue) : Val :=
  VObject [(lit "id", Val_of_JsValue (Num (clue_id c)));
           (lit "answer", VString (answer c));
           (lit "question", VString (question c));
           (lit "value", Val_of_JsValue (value c));
           (lit "airdate", VString (airdate c));
           (lit "category", VObject [(lit "title", VString (category_title c))])].

(** ** The body of the loop of [onSearch]: unique clues, default value, sort *)

(** Lines 111-118: [questionSet] and [uniqueClues] while [clues] is walked. *)
Fixpoint unique_loop (clues : list Clue) (questionSet : gset jsstring)
    (uniqueClues : list Clue) : list Clue :=
  match clues with
  | [] => uniqueClues
  | clue :: rest =>
      if bool_decide (question clue ∈ questionSet)
      then unique_loop rest questionSet uniqueClues
      else unique_loop rest ({[ question clue ]} ∪ questionSet) (uniqueClues ++ [clue])
  end.

Definition uniqueClues (clues : list Clue) : list Clue := unique_loop clues ∅ [].

(** Line 121: [clue.value = clue.value ? clue.value : 0]. *)
Definition default_value (clue : Clue) : Clue :=
  set_value clue (if truthy (value clue) then value clue else Num 0).

(** Line 124: the comparator [(clue1, clue2) => clue1.value - clue2.value]. *)
Definition by_value (clue1 clue2 : Clue) : option Z :=
  js_sub (value clue1) (value clue2).

(** What [Array.prototype.sort] makes of a comparator's answer: NaN counts
    as [+0]. *)
Definition SortCompare {A} (comparefn : A → A → option Z) (x y : A) : Z :=
  default 0 (comparefn x y).

(** [Array.prototype.sort] is the engine's.  ECMAScript (2019 on) requires a
    stable sort; it is taken here as the stable insertion sort: an element
    goes in front of the first later element that does not sort before it. *)
Fixpoint sort_insert {A} (comparefn : A → A → option Z) (x : A) (l : list A) : list A :=
  match l with
  | [] => [x]
  | y :: l' =>
      if SortCompare comparefn x y <=? 0 then x :: y :: l'
      else y :: sort_insert comparefn x l'
  end.

Fixpoint Array_sort {A} (comparefn : A → A → option Z) (l : list A) : list A :=
  match l with
  | [] => []
  | x :: l' => sort_insert comparefn x (Array_sort comparefn l')
  end.

(** The clue list of one category as lines 110-124 leave it. *)
Definition normalizedClues (clues : list Clue) : list Clue :=
  Array_sort by_value (default_value <$> uniqueClues clues).

(** The value of a clue is a number. *)
Definition numeric (c : Clue) : Prop := ∃ n, value c = Num n.

(** The order the sorted clues are in: both values are numbers, the first
    not above the second. *)
Definition value_le (a b : Clue) : Prop :=
  ∃ x y, value a = Num x ∧ value b = Num y ∧ x ≤ y.

(** ** [App] *)

Module App.

(** The search filters.  A date is [undefined] at first and later what the
    date input holds; [value] is what the selector holds. *)
Record Filters := mkFilters {
  min_date : option jsstring;
  max_date : option jsstring;
  value : jsstring
}.

(** A category record as [onSearch] builds it. *)
Record Category := mkCategory {
  title : jsstring;
  clues : list Clue
}.

(** An entry of [answered]. *)
Record Answered := mkAnswered {
  clue : Clue;
  answer : jsstring
}.

Record State := mkState {
  filters : Filters;
  searchText : jsstring;
  categories : list Category;
  answered : list Answered;
  favorites : list Clue;
  searching : bool
}.

Definition INITIAL_STATE : State :=
  {| filters := {| min_date := None; max_date := None; value := lit "any" |};
     searchText := [];
     categories := [];
     answered := [];
     favorites := [];
     searching := false |}.

Definition MAX_CATEGORIES : nat := 12.

(** What one search sees of the browser: the clock and the network.  The
    clues requests of a search are numbered from 0 in the order they are
    issued, so that the clock and the answers may change between them. *)
Record Host := mkHost {
  (** [encodeURIComponent]; [None]: it throws. *)
  encodeURIComponent : jsstring → option jsstring;
  (** [fetch(url)] then [res.text()]; [None]: the promise is rejected. *)
  fetch_text : jsstring → option jsstring;
  (** [new Date().toISOString()] at the k-th clues request. *)
  now : nat → jsstring;
  (** [fetch(url).then(res => res.json())] for the k-th clues request;
      [None]: the promise is rejected, or what it yields is no array of
      clues. *)
  fetch_json : nat → jsstring → option (list Clue);
  (** [JSON.stringify] on the component state. *)
  JSON_stringify : State → jsstring;
  (** [localStorage.setItem('app-state', text)]; [false]: it throws, as
      it does when the quota is exceeded, and nothing is stored. *)
  setItem : jsstring → bool
}.

(** [new Date(0).toISOString()]. *)
Definition epoch : jsstring := lit "1970-01-01T00:00:00.000Z".

(** [a || b] where [a] is [undefined] or a string: the empty string is falsy
    too. *)
Definition or_else (a : option jsstring) (b : jsstring) : jsstring :=
  match a with
  | Some (c :: s) => c :: s
  | _ => b
  end.

(** The four query parts of [searchClues], in the order they are joined. *)
Definition searchClues_parts (now_iso : jsstring) (f : Filters)
    (categoryId : jsstring) : list jsstring :=
  let categoryQs := lit "category=" ++ categoryId in
  let maxDateQs := lit "max_date=" ++ or_else (max_date f) now_iso in
  let minDateQs := lit "min_date=" ++ or_else (min_date f) epoch in
  let valueQs :=
    if bool_decide (value f = lit "any") then [] else lit "value=" ++ value f in
  [maxDateQs; minDateQs; categoryQs; valueQs].

(** [constructedUrl] of [searchClues]. *)
Definition constructedUrl (now_iso : jsstring) (f : Filters)
    (categoryId : jsstring) : jsstring :=
  lit "http://jservice.io/api/clues?" ++
  join (lit "&") (searchClues_parts now_iso f categoryId).

(** [searchClues] as request [k] of a search: the URL it fetches and what
    the promise it returns yields. *)
Definition searchClues (h : Host) (f : Filters) (k : nat) (categoryId : jsstring)
    : jsstring * option (list Clue) :=
  let url := constructedUrl (now h k) f categoryId in
  (url, fetch_json h k url).

(** *** Reading the query of a URL back *)

(** [s] after the first [sep]. *)
Fixpoint after (sep : code_unit) (s : jsstring) : jsstring :=
  match s with
  | [] => []
  | c :: s' => if (c =? sep)%N then s' else after sep s'
  end.

(** [s] up to the first [sep]. *)
Fixpoint before (sep : code_unit) (s : jsstring) : jsstring :=
  match s with
  | [] => []
  | c :: s' => if (c =? sep)%N then [] else c :: before sep s'
  end.

(** [s.split(sep)] for a separator of one unit. *)
Fixpoint split_on (sep : code_unit) (s : jsstring) : list jsstring :=
  match s with
  | [] => [[]]
  | c :: s' =>
      if (c =? sep)%N then [] :: split_on sep s'
      else
        match split_on sep s' with
        | p :: ps => (c :: p) :: ps
        | [] => [[c]]
        end
  end.

(** The parameters of the query of [url], name and value, in order: the
    query starts after the first question mark, an ampersand ends a
    parameter, an empty one does not count, and the name of a parameter ends
    at its first equals sign. *)
Definition query_params (url : jsstring) : list (jsstring * jsstring) :=
  (λ p, (before 61 p, after 61 p)) <$>
    filter (λ p, p ≠ []) (split_on 38 (after 63 url)).

(** *** The category ids of the search page *)

(** [/popular\/\d+/] at the head of [s]: the text it matches there. *)
Definition match_here (s : jsstring) : option jsstring :=
  match strip_prefix (lit "popular/") s with
  | Some r =>
      match take_digits r with
      | [] => None
      | ds => Some (lit "popular/" ++ ds)
      end
  | None => None
  end.

(** [s.match(/popular\/\d+/g)]: the matches from left to right, the search
    resuming where the previous match ended ([skip] counts the code units of
    a match still to be passed over). *)
Fixpoint match_all (skip : nat) (s : jsstring) : list jsstring :=
  match s with
  | [] => []
  | _ :: s' =>
      match skip with
      | S k => match_all k s'
      | O =>
          match match_here s with
          | Some m => m :: match_all (length m - 1) s'
          | None => match_all 0 s'
          end
      end
  end.

(** [match.substr(8)] *)
Definition substr (start : nat) (s : jsstring) : jsstring := drop start s.

(** [(html.match(regexp) || []).map(match => match.substr(8))] *)
Definition matchedIds (html : jsstring) : list jsstring :=
  substr 8 <$> match_all 0 html.

(** *** The loop over the category ids *)

(** Lines 108-138.  [k] numbers the clues request, [categories] is the array
    filled so far, [requests] the URLs fetched so far.  [None]: the awaited
    [searchClues] was rejected, which ends [onSearch] there. *)
Fixpoint for_categoryId (h : Host) (f : Filters) (k : nat) (ids : list jsstring)
    (categories : list Category) (requests : list jsstring)
    : list jsstring * option (list Category) :=
  match ids with
  | [] => (requests, Some categories)
  | categoryId :: rest =>
      let '(url, answer) := searchClues h f k categoryId in
      let requests := requests ++ [url] in
      match answer with
      | None => (requests, None)
      | Some clues =>
          match normalizedClues clues with
          | [] => for_categoryId h f (S k) rest categories requests
          | first :: others =>
              let category :=
                {| title := category_title first; clues := first :: others |} in
              let categories := categories ++ [category] in
              if bool_decide (MAX_CATEGORIES ≤ length categories)%nat
              then (requests, Some categories)
              else for_categoryId h f (S k) rest categories requests
          end
      end
  end.

(** *** [onSearch] *)

(** The component state, the ['app-state'] slot of [localStorage], and the
    URLs fetched so far. *)
Record World := mkWorld {
  state : State;
  storage : option jsstring;
  requests : list jsstring
}.

Inductive Failure :=
  | RetrievalError
  | URIError
  | StorageError.

#[global] Instance Failure_eq_dec : EqDecision Failure.
Proof. solve_decision. Defined.

(** How an [async] method ends: its promise is fulfilled or rejected. *)
Inductive Completion :=
  | Fulfilled
  | Rejected (e : Failure).

#[global] Instance Completion_eq_dec : EqDecision Completion.
Proof. solve_decision. Defined.

(** [this.setState({...this.state, searching: b})]: the given properties
    are merged into the state. *)
Definition set_searching (b : bool) (st : State) : State :=
  {| filters := filters st; searchText := searchText st;
     categories := categories st; answered := answered st;
     favorites := favorites st; searching := b |}.

(** [this.setState({searching: false, categories: categories})] *)
Definition set_results (cs : list Category) (st : State) : State :=
  {| filters := filters st; searchText := searchText st;
     categories := cs; answered := answered st;
     favorites := favorites st; searching := false |}.

Definition searchUrl (query : jsstring) : jsstring :=
  lit "http://jservice.io/search?query=" ++ query.

(** [onSearch].  A rejected [await] (lines 101, 102 and 109) ends the method
    there: nothing in it catches.  So does a [setItem] that throws at line
    146, with the state set at line 140 already. *)
Definition onSearch (h : Host) (w : World) : World * Completion :=
  let st := set_searching true (state w) in
  match encodeURIComponent h (searchText st) with
  | None => ({| state := st; storage := storage w; requests := requests w |},
             Rejected URIError)
  | Some query =>
      let url := searchUrl query in
      let reqs := requests w ++ [url] in
      match fetch_text h url with
      | None => ({| state := st; storage := storage w; requests := reqs |},
                 Rejected RetrievalError)
      | Some html =>
          match for_categoryId h (filters st) 0 (matchedIds html) [] reqs with
          | (reqs', None) =>
              ({| state := st; storage := storage w; requests := reqs' |},
               Rejected RetrievalError)
          | (reqs', Some categories) =>
              let st' := set_results categories st in
              if setItem h (JSON_stringify h st')
              then ({| state := st'; storage := Some (JSON_stringify h st');
                       requests := reqs' |}, Fulfilled)
              else ({| state := st'; storage := storage w; requests := reqs' |},
                    Rejected StorageError)
          end
      end
  end.

(** *** What a search finds *)

(** The category record the k-th clues request gives for [categoryId], when
    the request is answered and a clue is left. *)
Definition category_of (h : Host) (f : Filters) (k : nat) (categoryId : jsstring)
    : option Category :=
  match (searchClues h f k categoryId).2 with
  | Some clues =>
      match normalizedClues clues with
      | [] => None
      | first :: others =>
          Some {| title := category_title first; clues := first :: others |}
      end
  | None => None
  end.

(** The category records of [ids] in order, the ids that give none skipped;
    the first id is the subject of request [k]. *)
Fixpoint found (h : Host) (f : Filters) (k : nat) (ids : list jsstring)
    : list Category :=
  match ids with
  | [] => []
  | categoryId :: rest =>
      match category_of h f k categoryId with
      | Some c => c :: found h f (S k) rest
      | None => found h f (S k) rest
      end
  end.

(** The URLs of the clues requests for [ids], the first being request [k]. *)
Fixpoint request_urls (h : Host) (f : Filters) (k : nat) (ids : list jsstring)
    : list jsstring :=
  match ids with
  | [] => []
  | categoryId :: rest =>
      constructedUrl (now h k) f categoryId :: request_urls h f (S k) rest
  end.

(** *** The snapshot read at startup *)

(** The component state as an object. *)
Definition Val_of_State (st : State) : Val :=
  VObject [
    (lit "filters", VObject [
       (lit "min_date", Val_of_date (min_date (filters st)));
       (lit "max_date", Val_of_date (max_date (filters st)));
       (lit "value", VString (value (filters st)))]);
    (lit "searchText", VString (searchText st));
    (lit "categories", VArray ((λ c,
       VObject [(lit "title", VString (title c));
                (lit "clues", VArray (Val_of_Clue <$> clues c))]) <$> categories st));
    (lit "answered", VArray ((λ a,
       VObject [(lit "clue", Val_of_Clue (clue a));
                (lit "answer", VString (answer a))]) <$> answered st));
    (lit "favorites", VArray (Val_of_Clue <$> favorites st));
    (lit "searching", VBool (searching st))].

(** How the constructor ends: [this.state] is set, or [JSON.parse] threw. *)
Inductive Constructed :=
  | Built (this_state : list (jsstring * Val))
  | SyntaxError.

(** [localStorage.getItem] gives [null] for a key that is not there, and
    [JSON.parse] reads its argument as a string. *)
Definition getItem_text (item : option jsstring) : jsstring :=
  match item with
  | None => lit "null"
  | Some text => text
  end.

(** The constructor of [App], given the ['app-state'] slot. *)
Definition constructor (item : option jsstring) : Constructed :=
  match JSON.parse (getItem_text item) with
  | None => SyntaxError
  | Some savedState =>
      if truthy_val savedState then Built (spread savedState)
      else Built (spread (Val_of_State INITIAL_STATE))
  end.

End App.

(** ** The other handlers of [App] *)

Module AppHandlers.

(** [this.setState({...this.state, answered: a})] *)
Definition set_answered (a : list App.Answered) (st : App.State) : App.State :=
  {| App.filters := App.filters st; App.searchText := App.searchText st;
     App.categories := App.categories st; App.answered := a;
     App.favorites := App.favorites st; App.searching := App.searching st |}.

(** [this.setState({...this.state, favorites: l})] *)
Definition set_favorites (l : list Clue) (st : App.State) : App.State :=
  {| App.filters := App.filters st; App.searchText := App.searchText st;
     App.categories := App.categories st; App.answered := App.answered st;
     App.favorites := l; App.searching := App.searching st |}.

(** [this.setState({...this.state, filters: f})] *)
Definition set_filters (f : App.Filters) (st : App.State) : App.State :=
  {| App.filters := f; App.searchText := App.searchText st;
     App.categories := App.categories st; App.answered := App.answered st;
     App.favorites := App.favorites st; App.searching := App.searching st |}.

(** [localStorage.setItem('app-state', JSON.stringify(this.state))] once the
    state is [st].  When [setItem] throws nothing is stored and the promise
    of the handler is rejected, which no caller awaits; the state is set
    already. *)
Definition save (h : App.Host) (w : App.World) (st : App.State) : App.World :=
  {| App.state := st;
     App.storage :=
       if App.setItem h (App.JSON_stringify h st)
       then Some (App.JSON_stringify h st) else App.storage w;
     App.requests := App.requests w |}.

(** [onAnswer] *)
Definition onAnswer (h : App.Host) (w : App.World) (clue : Clue) (text : jsstring)
    : App.World :=
  let st := App.state w in
  save h w (set_answered
              (App.answered st ++ [{| App.clue := clue; App.answer := text |}]) st).

(** [{ ...filters, [name]: v }]: the filters read the properties [min_date],
    [max_date] and [value]; a property of another name is read by nothing. *)
Definition with_property (name v : jsstring) (f : App.Filters) : App.Filters :=
  if bool_decide (name = lit "min_date") then
    {| App.min_date := Some v; App.max_date := App.max_date f; App.value := App.value f |}
  else if bool_decide (name = lit "max_date") then
    {| App.min_date := App.min_date f; App.max_date := Some v; App.value := App.value f |}
  else if bool_decide (name = lit "value") then
    {| App.min_date := App.min_date f; App.max_date := App.max_date f; App.value := v |}
  else f.

(** [onFilterChange], for an event whose target has this name and value. *)
Definition onFilterChange (w : App.World) (name v : jsstring) : App.World :=
  let st := App.state w in
  {| App.state := set_filters (with_property name v (App.filters st)) st;
     App.storage := App.storage w; App.requests := App.requests w |}.

(** [onSearchTextChange]: the search box is the one element it is attached
    to, and its name is [searchText]. *)
Definition onSearchTextChange (w : App.World) (v : jsstring) : App.World :=
  let st := App.state w in
  {| App.state :=
       {| App.filters := App.filters st; App.searchText := v;
          App.categories := App.categories st; App.answered := App.answered st;
          App.favorites := App.favorites st; App.searching := App.searching st |};
     App.storage := App.storage w; App.requests := App.requests w |}.

(** [selectValue]: the filters are set, then the search runs; what is given
    back is how that search ends. *)
Definition selectValue (h : App.Host) (w : App.World) (name v : jsstring)
    : App.World * App.Completion :=
  let st := App.state w in
  let newFilters := with_property name v (App.filters st) in
  App.onSearch h
    {| App.state := set_filters newFilters st;
       App.storage := App.storage w; App.requests := App.requests w |}.

(** [getCorrectAnswers] *)
Definition getCorrectAnswers (st : App.State) : list App.Answered :=
  filter (λ a, App.answer a = answer (App.clue a)) (App.answered st).

(** A number as sums of clue values make them: a double that is an
    integer, an infinity, or NaN. *)
Inductive Number :=
  | Finite (z : Z)
  | Infinity (negative : bool)
  | NaN.

(** The double nearest to an integer.  Up to 2^53 every integer is a double;
    above, the integer is cut to 53 bits, the nearest multiple taken and of
    two equally near the even one; from 2^1024 on the result is an
    infinity. *)
Definition round_to_double (z : Z) : Number :=
  let a := Z.abs z in
  if a <=? 2 ^ 53 then Finite z
  else
    let e := Z.log2 a - 52 in
    let q := Z.shiftr a e in
    let r := a - Z.shiftl q e in
    let half := 2 ^ (e - 1) in
    let q' := if (half <? r) || ((r =? half) && Z.odd q) then q + 1 else q in
    let m := Z.shiftl q' e in
    if 2 ^ 1024 <=? m then Infinity (z <? 0) else Finite (Z.sgn z * m).

(** [x + y] on numbers. *)
Definition number_add (x y : Number) : Number :=
  match x, y with
  | NaN, _ | _, NaN => NaN
  | Infinity s, Infinity t => if Bool.eqb s t then Infinity s else NaN
  | Infinity s, Finite _ | Finite _, Infinity s => Infinity s
  | Finite a, Finite b => round_to_double (a + b)
  end.

(** [sum + num] where [num] is the value property of a clue. *)
Definition add_value (sum : Number) (num : JsValue) : Number :=
  number_add sum
    match ToNumber num with
    | Some n => round_to_double n
    | None => NaN
    end.

(** [calculateEarnings] *)
Definition calculateEarnings (st : App.State) : Number :=
  let correctValues :=
    (λ a, value (App.clue a)) <$>
      filter (λ a, truthy (value (App.clue a)) = true) (getCorrectAnswers st) in
  foldl add_value (Finite 0) correctValues.

(** [toggleFavorite].  [push] changes the array the state holds before
    [setState] hands the same array back; the state after is the same. *)
Definition toggleFavorite (h : App.Host) (w : App.World) (clue : Clue) : App.World :=
  let st := App.state w in
  let newFavList := App.favorites st in
  let newFavList :=
    if existsb (λ fav, bool_decide (question fav = question clue)) newFavList
    then filter (λ fav, question fav ≠ question clue) newFavList
    else newFavList ++ [clue] in
  save h w (set_favorites newFavList st).

(** What an answer scores: the value of its clue when its text is the
    answer of the clue, to the letter; 0 when it is not, or when the clue has
    no value. *)
Definition points (a : App.Answered) : Z :=
  if bool_decide (App.answer a = answer (App.clue a))
  then match value (App.clue a) with Num n => n | _ => 0 end
  else 0.

Definition total_points (l : list App.Answered) : Z :=
  foldr (λ a acc, points a + acc) 0 l.

(** The size of what the answers score, gains and losses alike. *)
Definition total_size (l : list App.Answered) : Z :=
  foldr (λ a acc, Z.abs (points a) + acc) 0 l.

End AppHandlers.

(** ** [Category] *)

Module CategoryCard.

Record Props := mkProps {
  category : App.Category;
  answered : list App.Answered;
  favorites : list Clue
}.

Record State := mkState {
  state_category : App.Category;
  selectedClue : option Clue;
  state_answer : jsstring
}.

(** [markClue] *)
Definition markClue (props : Props) (clue : option Clue) : jsstring :=
  match clue with
  | None => lit "primary"
  | Some clue =>
      let clueMatchedAnswers :=
        filter (λ a, clue_id (App.clue a) = clue_id clue) (answered props) in
      if bool_decide (length clueMatchedAnswers = 0%nat) then lit "primary"
      else if existsb (λ a, bool_decide (App.answer a = answer clue)) clueMatchedAnswers
           then lit "success" else lit "danger"
  end.

(** [isFavorite]: a clue that is not there has no question to compare. *)
Definition isFavorite (props : Props) (clue : option Clue) : bool :=
  match clue with
  | None => false
  | Some clue => existsb (λ fav, bool_decide (question fav = question clue)) (favorites props)
  end.

(** [\s]: white space and line terminators. *)
Definition is_whitespace (c : code_unit) : bool :=
  bool_decide (c ∈ [9; 10; 11; 12; 13; 32; 160; 5760; 8232; 8233; 8239; 8287;
                    12288; 65279]%N)
  || ((8192 <=? c) && (c <=? 8202))%N.

(** [s.replace(/\S/g, star)]: every unit that is no white space becomes a star. *)
Definition mask (s : jsstring) : jsstring :=
  (λ c, if is_whitespace c then c else 42%N) <$> s.

(** [s.substring(from, to)] for [from <= to <= s.length]. *)
Definition substring (from to : nat) (s : jsstring) : jsstring :=
  take (to - from) (drop from s).

(** [s[i]]: the one-unit string at [i]. *)
Definition char_at (i : nat) (s : jsstring) : jsstring := take 1 (drop i s).

(** [getHint] *)
Definition getHint (clue : option Clue) : jsstring :=
  let hint := match clue with Some c => answer c | None => [] end in
  if bool_decide (length hint < 3)%nat then mask hint
  else
    let middle := substring 1 (length hint - 1) hint in
    char_at 0 hint ++ mask middle ++ char_at (length hint - 1) hint.

(** A clue button of the card's front. *)
Record Button := mkButton {
  (** the clue [setClue] is called with on a click *)
  onClick : Clue;
  className : jsstring;
  (** the value shown after the dollar sign *)
  text : JsValue;
  icon_className : jsstring
}.

Definition button (props : Props) (st : State) (clue : Clue) : Button :=
  {| onClick := clue;
     className :=
       lit "btn btn-" ++ markClue props (Some clue) ++ lit " btn-block " ++
       match selectedClue st with Some _ => lit "bg-warning" | None => [] end;
     text := value clue;
     icon_className :=
       lit "ml-1 text-danger " ++
       (if isFavorite props (Some clue) then lit "fas fa-heart" else []) |}.

(** [listItems] of [render]. *)
Definition listItems (props : Props) (st : State) : list Button :=
  let first5Clues := take 5 (App.clues (state_category st)) in
  button props st <$> first5Clues.

(** The constructor. *)
Definition constructor (props : Props) : State :=
  {| state_category := category props; selectedClue := None; state_answer := [] |}.

(** [onChange]: the answer field is the one element it is attached to, and
    its name is [answer]. *)
Definition onChange (st : State) (v : jsstring) : State :=
  {| state_category := state_category st; selectedClue := selectedClue st;
     state_answer := v |}.

(** [setClue] *)
Definition setClue (st : State) (clue : option Clue) : State :=
  {| state_category := state_category st;
     selectedClue := match selectedClue st with Some _ => None | None => clue end;
     state_answer := [] |}.

(** [submitAnswer]: the arguments [props.onAnswer] is called with, and the
    state after. *)
Definition submitAnswer (st : State) : (option Clue * jsstring) * State :=
  ((selectedClue st, state_answer st), setClue st None).

(** [getMyAnswer]; [None]: [undefined], nothing is recorded for the clue. *)
Definition getMyAnswer (props : Props) (clue : Clue) : option jsstring :=
  head (App.answer <$>
          filter (λ a, clue_id (App.clue a) = clue_id clue) (answered props)).

(** The back of the card shows the answer field and the hint when
    [markClue] of the selected clue is [primary], else the recorded answer. *)
Definition shows_answer_field (props : Props) (st : State) : bool :=
  bool_decide (markClue props (selectedClue st) = lit "primary").

End CategoryCard.

(** ** [Board] *)

Module Board.

Record Props := mkProps {
  categories : list App.Category;
  answered : list App.Answered;
  favorites : list Clue
}.

Record State := mkState {
  state_categories : list App.Category
}.

(** The constructor. *)
Definition constructor (props : Props) : State :=
  {| state_categories := categories props |}.

(** [render]: the props of the [Category] elements, in order. *)
Definition render (props : Props) (st : State) : list CategoryCard.Props :=
  (λ category,
     {| CategoryCard.category := category;
        CategoryCard.answered := answered props;
        CategoryCard.favorites := favorites props |}) <$> state_categories st.

(** The props [render] of [App] gives its [Board]. *)
Definition of_App (st : App.State) : Props :=
  {| categories := App.categories st;
     answered := App.answered st;
     favorites := App.favorites st |}.

(** The clue buttons of a board that is mounted with these props: those of
    each card, mounted in turn. *)
Definition mounted_buttons (props : Props) : list (list CategoryCard.Button) :=
  (λ p, CategoryCard.listItems p (CategoryCard.constructor p)) <$>
    render props (constructor props).

End Board.

(** ** Sample data *)

Module Examples.

Definition clue (q : string) (v : JsValue) : Clue :=
  {| clue_id := 1; question := lit q; answer := lit "an answer"; value := v;
     category_title := lit "a title"; airdate := lit "2001-02-03T12:00:00.000Z" |}.

(** The scenario of the specification: the first clue has no value and its
    question text comes again. *)
Definition scenario : list Clue :=
  [clue "Q1" null; clue "Q1" (Num 200); clue "Q2" (Num 100)].

(** A clue with no value that repeats the question text of an earlier one. *)
Definition repeated : list Clue :=
  [clue "Q1" (Num 200); clue "Q1" null].

(** A search page with fourteen category links. *)
Definition page14 : jsstring :=
  lit "<a href=/popular/1>a</a> <a href=/popular/2>b</a> popular/3 popular/4 popular/5 popular/6 popular/7 popular/8 popular/9 popular/10 popular/11 popular/12 popular/13 popular/14".

(** Every request is answered; the second clues request gives no clue. *)
Definition answering : App.Host :=
  {| App.encodeURIComponent := Some;
     App.fetch_text := λ _, Some page14;
     App.now := λ _, lit "2020-05-17T10:00:00.000Z";
     App.fetch_json := λ k _, if (k =? 1)%nat then Some [] else Some scenario;
     App.JSON_stringify := λ _, lit "snapshot";
     App.setItem := λ _, true |}.

(** A search page with two category links. *)
Definition page2 : jsstring := lit "<a href=/popular/1>a</a> <a href=/popular/2>b</a>".

(** The first clues request is rejected; a second one would be answered. *)
Definition failing : App.Host :=
  {| App.encodeURIComponent := Some;
     App.fetch_text := λ _, Some page2;
     App.now := λ _, lit "2020-05-17T10:00:00.000Z";
     App.fetch_json := λ k _, if (k =? 0)%nat then None else Some scenario;
     App.JSON_stringify := λ _, lit "snapshot";
     App.setItem := λ _, true |}.

(** The request for the search page is rejected. *)
Definition offline : App.Host :=
  {| App.encodeURIComponent := Some;
     App.fetch_text := λ _, None;
     App.now := λ _, lit "2020-05-17T10:00:00.000Z";
     App.fetch_json := λ _ _, None;
     App.JSON_stringify := λ _, lit "snapshot";
     App.setItem := λ _, true |}.

(** Every request is answered, and the storage takes nothing more. *)
Definition full : App.Host :=
  {| App.encodeURIComponent := Some;
     App.fetch_text := λ _, Some page2;
     App.now := λ _, lit "2020-05-17T10:00:00.000Z";
     App.fetch_json := λ _ _, Some scenario;
     App.JSON_stringify := λ _, lit "snapshot";
     App.setItem := λ _, false |}.

(** The application as it starts, the user having typed a search text. *)
Definition started : App.World :=
  {| App.state :=
       {| App.filters := App.filters App.INITIAL_STATE;
          App.searchText := lit "dogs";
          App.categories := [];
          App.answered := [];
          App.favorites := [];
          App.searching := false |};
     App.storage := None;
     App.requests := [] |}.

(** [clue] with another answer text. *)
Definition set_answer (c : Clue) (a : jsstring) : Clue :=
  {| clue_id := clue_id c; question := question c; answer := a;
     value := value c; category_title := category_title c; airdate := airdate c |}.

(** A category of seven clues on a card. *)
Definition seven : App.Category :=
  {| App.title := lit "a title";
     App.clues := [clue "Q1" (Num 0); clue "Q2" (Num 100); clue "Q3" (Num 200);
                   clue "Q4" (Num 300); clue "Q5" (Num 400); clue "Q6" (Num 500);
                   clue "Q7" (Num 600)] |}.

Definition card_props : CategoryCard.Props :=
  {| CategoryCard.category := seven;
     CategoryCard.answered := [];
     CategoryCard.favorites := [] |}.

Definition card_state : CategoryCard.State :=
  {| CategoryCard.state_category := seven;
     CategoryCard.selectedClue := None;
     CategoryCard.state_answer := [] |}.

(** Filters with an end date and a value picked. *)
Definition filters300 : App.Filters :=
  {| App.min_date := Some []; App.max_date := Some (lit "2019-12-31");
     App.value := lit "300" |}.

End Examples.

(** A decidable closed statement, by evaluation. *)
Ltac decide_now :=
  match goal with
  | |- ?P => apply (bool_decide_eq_true_1 P); vm_compute; reflexivity
  end.

(** ** Lemmas on the loop body *)

Lemma unique_loop_acc clues Q U :
  unique_loop clues Q U = U ++ unique_loop clues Q [].
Proof.
  revert Q U. induction clues as [|c clues IH]; intros Q U; simpl.
  - by rewrite app_nil_r.
  - case_bool_decide.
    + apply IH.
    + rewrite IH. rewrite (IH _ [c]). by rewrite <- app_assoc.
Qed.

Lemma unique_loop_cons c clues Q :
  unique_loop (c :: clues) Q [] =
    if bool_decide (question c ∈ Q) then unique_loop clues Q []
    else c :: unique_loop clues ({[ question c ]} ∪ Q) [].
Proof. simpl. case_bool_decide; [done|]. by rewrite unique_loop_acc. Qed.

Lemma not_elem_of_added (q q' : jsstring) (Q : gset jsstring) :
  q ∉ ({[ q' ]} ∪ Q : gset jsstring) ↔ q ≠ q' ∧ q ∉ Q.
Proof. by rewrite not_elem_of_union, not_elem_of_singleton. Qed.

Lemma unique_loop_elem clues Q c :
  c ∈ unique_loop clues Q [] → c ∈ clues ∧ question c ∉ Q.
Proof.
  revert Q. induction clues as [|c' clues IH]; intros Q.
  - simpl. by intros ?%elem_of_nil.
  - rewrite unique_loop_cons. case_bool_decide as Hin.
    + intros [? ?]%IH. split; [by right|done].
    + intros [->|Hc]%elem_of_cons; [split; [by left|done]|].
      apply IH in Hc as [? [_ HS]%not_elem_of_added]. split; [by right|done].
Qed.

Lemma unique_loop_NoDup clues Q :
  NoDup (question <$> unique_loop clues Q []).
Proof.
  revert Q. induction clues as [|c clues IH]; intros Q.
  - simpl. constructor.
  - rewrite unique_loop_cons. case_bool_decide as Hin; [apply IH|].
    rewrite fmap_cons. constructor; [|apply IH].
    intros (c' & Hq & Hc')%list_elem_of_fmap.
    by apply unique_loop_elem in Hc' as [_ [? _]%not_elem_of_added].
Qed.

Lemma unique_loop_first clues Q c :
  c ∈ unique_loop clues Q [] →
  ∃ i, list_find (λ x, question x = question c) clues = Some (i, c).
Proof.
  revert Q. induction clues as [|c' clues IH]; intros Q.
  - simpl. by intros ?%elem_of_nil.
  - rewrite unique_loop_cons. case_bool_decide as Hin.
    + intros Hc. destruct (IH _ Hc) as [i Hi].
      apply unique_loop_elem in Hc as [_ HS].
      exists (S i). simpl. rewrite decide_False by congruence.
      by rewrite Hi.
    + intros [->|Hc]%elem_of_cons.
      * exists 0%nat. simpl. by rewrite decide_True.
      * destruct (IH _ Hc) as [i Hi].
        apply unique_loop_elem in Hc as [_ [Hne _]%not_elem_of_added].
        exists (S i). simpl. rewrite decide_False by done.
        by rewrite Hi.
Qed.

Lemma unique_loop_complete clues Q c0 :
  c0 ∈ clues → question c0 ∉ Q →
  ∃ c, c ∈ unique_loop clues Q [] ∧ question c = question c0.
Proof.
  revert Q. induction clues as [|c' clues IH]; intros Q.
  - by intros ?%elem_of_nil.
  - rewrite unique_loop_cons. intros Hc0 HS.
    case_bool_decide as Hin.
    + apply elem_of_cons in Hc0 as [->|Hc0]; [done|]. by apply IH.
    + destruct (decide (question c0 = question c')) as [Heq|Hne].
      * exists c'. split; [by left|done].
      * apply elem_of_cons in Hc0 as [->|Hc0]; [done|].
        destruct (IH ({[ question c' ]} ∪ Q) Hc0) as (c & Hc & Hq);
          [by apply not_elem_of_added|].
        exists c. split; [by right|done].
Qed.

Lemma unique_loop_fmap (f : Clue → Clue) clues Q :
  (∀ c, question (f c) = question c) →
  unique_loop (f <$> clues) Q [] = f <$> unique_loop clues Q [].
Proof.
  intros Hf. revert Q. induction clues as [|c clues IH]; intros Q; [done|].
  rewrite fmap_cons, !unique_loop_cons, Hf.
  case_bool_decide; [apply IH|]. by rewrite fmap_cons, IH.
Qed.

Lemma default_value_question c : question (default_value c) = question c.
Proof. done. Qed.

Lemma default_value_numeric c : ∃ n, value (default_value c) = Num n.
Proof.
  unfold default_value. simpl. destruct (value c) as [| |n]; simpl; eauto.
  destruct (n =? 0); simpl; eauto.
Qed.

Lemma default_value_falsy c :
  truthy (value c) = false → default_value c = set_value c (Num 0).
Proof. unfold default_value. by intros ->. Qed.

Lemma default_value_truthy c :
  truthy (value c) = true → default_value c = c.
Proof. unfold default_value. intros ->. by destruct c. Qed.

(** *** The sort *)

Lemma sort_insert_Permutation {A} (cmp : A → A → option Z) x l :
  sort_insert cmp x l ≡ₚ x :: l.
Proof.
  induction l as [|y l IH]; simpl; [done|].
  destruct (_ <=? _); [done|]. rewrite IH. apply Permutation_swap.
Qed.

Lemma Array_sort_Permutation {A} (cmp : A → A → option Z) l :
  Array_sort cmp l ≡ₚ l.
Proof.
  induction l as [|x l IH]; simpl; [done|].
  by rewrite sort_insert_Permutation, IH.
Qed.

Lemma SortCompare_by_value a b x y :
  value a = Num x → value b = Num y → SortCompare by_value a b = x - y.
Proof. unfold SortCompare, by_value, js_sub. by intros -> ->. Qed.

Lemma value_le_trans a b c : value_le a b → value_le b c → value_le a c.
Proof.
  intros (x & y & Ha & Hb & ?) (y' & z & Hb' & Hc & ?).
  rewrite Hb in Hb'. injection Hb' as <-. exists x, z. repeat split; [done..|lia].
Qed.

Lemma sort_insert_sorted x l :
  numeric x → Forall numeric l →
  StronglySorted value_le l → StronglySorted value_le (sort_insert by_value x l).
Proof.
  intros [n Hx] Hnum Hs. induction Hs as [|y l Hs IH Hy]; simpl.
  - repeat constructor.
  - apply Forall_cons in Hnum as [[m Hm] Hnum].
    rewrite (SortCompare_by_value _ _ _ _ Hx Hm).
    destruct (Z.leb_spec (n - m) 0) as [Hle|Hgt].
    + assert (value_le x y) as Hxy by (exists n, m; repeat split; [done..|lia]).
      constructor; [by constructor|]. constructor; [done|].
      eapply Forall_impl; [exact Hy|]. intros z. by apply value_le_trans.
    + constructor; [by apply IH|].
      rewrite sort_insert_Permutation. constructor; [|done].
      exists m, n. repeat split; [done..|lia].
Qed.

Lemma Array_sort_sorted l :
  Forall numeric l → StronglySorted value_le (Array_sort by_value l).
Proof.
  induction l as [|x l IH]; simpl; [constructor|].
  intros [Hx Hl]%Forall_cons. apply sort_insert_sorted; [done| |by apply IH].
  by rewrite Array_sort_Permutation.
Qed.

Lemma sort_insert_stable v x l :
  numeric x → Forall numeric l →
  filter (λ c, value c = Num v) (sort_insert by_value x l) =
  filter (λ c, value c = Num v) (x :: l).
Proof.
  intros [n Hx]. induction l as [|y l IH]; simpl; [done|].
  intros [[m Hm] Hl]%Forall_cons.
  rewrite (SortCompare_by_value _ _ _ _ Hx Hm).
  destruct (Z.leb_spec (n - m) 0) as [Hle|Hgt]; [done|].
  rewrite !filter_cons, IH by done. rewrite !filter_cons.
  destruct (decide (value y = Num v)) as [Hy|Hy];
    destruct (decide (value x = Num v)) as [Hv|Hv]; try done.
  rewrite Hx in Hv. rewrite Hm in Hy. simplify_eq. lia.
Qed.

Lemma Array_sort_stable v l :
  Forall numeric l →
  filter (λ c, value c = Num v) (Array_sort by_value l) =
  filter (λ c, value c = Num v) l.
Proof.
  induction l as [|x l IH]; simpl; [done|].
  intros [Hx Hl]%Forall_cons.
  rewrite sort_insert_stable; [|done|by rewrite Array_sort_Permutation].
  by rewrite !filter_cons, IH.
Qed.

Lemma defaulted_numeric l : Forall numeric (default_value <$> l).
Proof. apply Forall_fmap, Forall_forall. intros c _. apply default_value_numeric. Qed.

Lemma unique_loop_keeps_first clues Q i c0 :
  list_find (λ x, question x = question c0) clues = Some (i, c0) →
  question c0 ∉ Q →
  c0 ∈ unique_loop clues Q [].
Proof.
  revert Q i. induction clues as [|c' clues IH]; intros Q i; [done|].
  rewrite unique_loop_cons. simpl.
  destruct (decide (question c' = question c0)) as [Heq|Hne].
  - intros [= <- <-] HQ. rewrite bool_decide_eq_false_2 by done. by left.
  - destruct (list_find _ clues) as [[j c1]|] eqn:Hfind; [|done].
    simpl. intros [= <- ->] HQ.
    case_bool_decide.
    + by eapply IH.
    + right. eapply IH; [done|]. apply not_elem_of_added. split; [congruence|done].
Qed.

Lemma elem_of_Array_sort {A} (cmp : A → A → option Z) l x :
  x ∈ Array_sort cmp l ↔ x ∈ l.
Proof. by rewrite Array_sort_Permutation. Qed.

Lemma uniqueClues_default_value clues :
  uniqueClues (default_value <$> clues) = default_value <$> uniqueClues clues.
Proof. apply unique_loop_fmap, default_value_question. Qed.

Lemma normalizedClues_NoDup clues : NoDup (question <$> normalizedClues clues).
Proof.
  unfold normalizedClues, uniqueClues.
  rewrite Array_sort_Permutation, <- list_fmap_compose.
  apply (unique_loop_NoDup clues ∅).
Qed.

Lemma normalizedClues_sorted clues : StronglySorted value_le (normalizedClues clues).
Proof. apply Array_sort_sorted, defaulted_numeric. Qed.

Lemma normalizedClues_numeric clues : Forall numeric (normalizedClues clues).
Proof.
  unfold normalizedClues. rewrite Array_sort_Permutation. apply defaulted_numeric.
Qed.

(** *** Normalizing twice *)

Lemma unique_loop_NoDup_id clues Q :
  NoDup (question <$> clues) →
  (∀ c, c ∈ clues → question c ∉ Q) →
  unique_loop clues Q [] = clues.
Proof.
  revert Q. induction clues as [|c clues IH]; intros Q; [done|].
  rewrite fmap_cons, NoDup_cons, unique_loop_cons. intros [Hc Hnodup] HQ.
  rewrite bool_decide_eq_false_2 by (apply HQ; by left).
  f_equal. apply IH; [done|]. intros c' Hc'. apply not_elem_of_added. split.
  - intros Heq. apply Hc, list_elem_of_fmap. by exists c'.
  - apply HQ. by right.
Qed.

Lemma default_value_numeric_id c : numeric c → default_value c = c.
Proof.
  intros [n Hn]. unfold default_value. rewrite Hn. simpl.
  destruct (Z.eqb_spec n 0) as [->|_]; simpl; rewrite <- Hn; by destruct c.
Qed.

Lemma Array_sort_sorted_id l :
  StronglySorted value_le l → Array_sort by_value l = l.
Proof.
  induction 1 as [|x l Hs IH Hx]; simpl; [done|].
  rewrite IH. destruct Hx as [|y l (n & m & Hn & Hm & Hle) _]; simpl; [done|].
  rewrite (SortCompare_by_value _ _ _ _ Hn Hm).
  destruct (Z.leb_spec (n - m) 0); [done|lia].
Qed.

(** X16 (normalizing twice): the clue list of a category is left as it is
    by a second pass of lines 110-124. *)
Lemma normalizedClues_idempotent clues :
  normalizedClues (normalizedClues clues) = normalizedClues clues.
Proof.
  pose proof (normalizedClues_NoDup clues) as Hnodup.
  pose proof (normalizedClues_sorted clues) as Hsorted.
  pose proof (normalizedClues_numeric clues) as Hnum.
  unfold normalizedClues at 1, uniqueClues.
  rewrite unique_loop_NoDup_id; [|done|intros; apply not_elem_of_empty].
  rewrite (list_fmap_ext default_value id (normalizedClues clues)), list_fmap_id.
  - by apply Array_sort_sorted_id.
  - intros i c Hc. apply default_value_numeric_id.
    rewrite Forall_forall in Hnum. apply Hnum. by eapply list_elem_of_lookup_2.
Qed.

(** ** The clue list of a category *)

(** C2: in the clue list of a category no two clues have the same question
    text; every clue of it is the first clue of the fetched sequence with its
    question text (with its value defaulted), and every question text of the
    fetched sequence is kept. *)
Theorem normalizedClues_unique_first_occurrence (clues : list Clue) :
  NoDup (question <$> normalizedClues clues) ∧
  (∀ c, c ∈ normalizedClues clues →
     ∃ i c0, list_find (λ x, question x = question c) clues = Some (i, c0) ∧
             c = default_value c0) ∧
  (∀ c0, c0 ∈ clues →
     ∃ c, c ∈ normalizedClues clues ∧ question c = question c0).
Proof.
  split; [apply normalizedClues_NoDup|].
  unfold normalizedClues, uniqueClues. split.
  - intros c (c0 & -> & Hc0)%elem_of_Array_sort%list_elem_of_fmap.
    destruct (unique_loop_first _ _ _ Hc0) as [i Hi]. by exists i, c0.
  - intros c0 Hc0.
    destruct (unique_loop_complete clues ∅ c0 Hc0) as (c & Hc & Hq);
      [apply not_elem_of_empty|].
    exists (default_value c). split; [|done].
    apply elem_of_Array_sort, list_elem_of_fmap. by exists c.
Qed.

Lemma normalizedClues_unique_first_occurrence_witness :
  NoDup (question <$> normalizedClues Examples.scenario) ∧
  (∃ i c0,
     list_find (λ x, question x = lit "Q1") Examples.scenario = Some (i, c0) ∧
     Examples.clue "Q1" (Num 0) = default_value c0) ∧
  (∃ c, c ∈ normalizedClues Examples.scenario ∧ question c = lit "Q1").
Proof.
  destruct (normalizedClues_unique_first_occurrence Examples.scenario)
    as (Hnodup & Hfirst & Hkept).
  split; [exact Hnodup|]. split.
  - apply (Hfirst (Examples.clue "Q1" (Num 0))). vm_compute. by left.
  - apply (Hkept (Examples.clue "Q1" (Num 200))). vm_compute. right. by left.
Defined.

(** C3: the clue list of a category is sorted by value, lowest first, and
    the sort is stable: the clues of any one value are in the order the
    deduplicated (and defaulted) sequence had them in. *)
Theorem normalizedClues_sorted_stable (clues : list Clue) :
  StronglySorted value_le (normalizedClues clues) ∧
  normalizedClues clues ≡ₚ default_value <$> uniqueClues clues ∧
  ∀ v, filter (λ c, value c = Num v) (normalizedClues clues) =
       filter (λ c, value c = Num v) (default_value <$> uniqueClues clues).
Proof.
  split; [apply normalizedClues_sorted|].
  unfold normalizedClues. split.
  - apply Array_sort_Permutation.
  - intros v. apply Array_sort_stable, defaulted_numeric.
Qed.

(** The scenario of the specification: the first clue of a question text is
    kept, its missing value becomes 0, and the clues are sorted. *)
Example normalizedClues_scenario :
  normalizedClues Examples.scenario =
  [Examples.clue "Q1" (Num 0); Examples.clue "Q2" (Num 100)].
Proof. by vm_compute. Qed.

(** Clues of one value stay in the order of the fetched sequence. *)
Example normalizedClues_ties :
  question <$> normalizedClues
    [Examples.clue "Q3" (Num 200); Examples.clue "Q1" (Num 100);
     Examples.clue "Q2" (Num 200); Examples.clue "Q0" undefined;
     Examples.clue "Q4" (Num 100)] =
  [lit "Q0"; lit "Q1"; lit "Q4"; lit "Q3"; lit "Q2"].
Proof. by vm_compute. Qed.

(** C4: every clue of the clue list of a category is the first clue of the
    fetched sequence with its question text, with its value defaulted: a
    value that was null or not there is 0.  Such a first clue with a null
    or missing value is in the list with value 0.  No clue of the list has
    a null or missing value: each has a number, and these numbers are what
    the sort has ordered.  Defaulting the values before the deduplication
    gives the same list. *)
Theorem normalizedClues_defaults_kept_clues (clues : list Clue) :
  (∀ c, c ∈ normalizedClues clues →
     ∃ i c0, list_find (λ x, question x = question c) clues = Some (i, c0) ∧
             c = default_value c0 ∧
             (value c0 = null ∨ value c0 = undefined → value c = Num 0)) ∧
  (∀ i c0, list_find (λ x, question x = question c0) clues = Some (i, c0) →
           value c0 = null ∨ value c0 = undefined →
           set_value c0 (Num 0) ∈ normalizedClues clues) ∧
  (∀ c, c ∈ normalizedClues clues →
     (∃ n, value c = Num n) ∧ value c ≠ null ∧ value c ≠ undefined) ∧
  StronglySorted value_le (normalizedClues clues) ∧
  normalizedClues clues = Array_sort by_value (uniqueClues (default_value <$> clues)).
Proof.
  split; [|split; [|split; [|split; [apply normalizedClues_sorted|]]]];
    unfold normalizedClues.
  - intros c (c0 & -> & Hc0)%elem_of_Array_sort%list_elem_of_fmap.
    destruct (unique_loop_first _ _ _ Hc0) as [i Hi]. exists i, c0.
    split; [done|]. split; [done|].
    intros Hv. rewrite default_value_falsy; [done|]. by destruct Hv as [-> | ->].
  - intros i c0 Hfind Hv.
    apply elem_of_Array_sort, list_elem_of_fmap. exists c0. split.
    + symmetry. apply default_value_falsy. by destruct Hv as [-> | ->].
    + eapply unique_loop_keeps_first; [done|apply not_elem_of_empty].
  - intros c (c0 & -> & _)%elem_of_Array_sort%list_elem_of_fmap.
    destruct (default_value_numeric c0) as [n Hn].
    split; [by exists n|]. rewrite Hn. by split.
  - by rewrite uniqueClues_default_value.
Qed.

Lemma normalizedClues_defaults_kept_clues_witness :
  Examples.clue "Q1" (Num 0) ∈ normalizedClues Examples.scenario.
Proof.
  destruct (normalizedClues_defaults_kept_clues Examples.scenario)
    as (_ & Hkept & _).
  apply (Hkept 0%nat (Examples.clue "Q1" null)).
  - vm_compute. reflexivity.
  - by left.
Defined.

(** The deduplication comes first: a clue with a null value that repeats the
    question text of an earlier clue is dropped with the other repeats, as
    in the scenario of the specification, and the clue kept has its own
    value. *)
Lemma null_valued_duplicate_is_dropped :
  Examples.clue "Q1" null ∈ Examples.repeated ∧
  value (Examples.clue "Q1" null) = null ∧
  normalizedClues Examples.repeated = [Examples.clue "Q1" (Num 200)] ∧
  set_value (Examples.clue "Q1" null) (Num 0) ∉ normalizedClues Examples.repeated.
Proof.
  split; [right; by left|]. split; [done|]. split; [by vm_compute|].
  assert (normalizedClues Examples.repeated = [Examples.clue "Q1" (Num 200)]) as ->
    by (by vm_compute).
  by intros [=]%list_elem_of_singleton.
Qed.

(** ** The scraped ids *)

Section Ids.
Import App.

Lemma take_digits_digits s : Forall (λ c, is_digit c = true) (take_digits s).
Proof.
  induction s as [|c s IH]; simpl; [constructor|].
  destruct (is_digit c) eqn:Hc; by constructor.
Qed.

Lemma match_here_shape s m :
  match_here s = Some m →
  ∃ ds, m = lit "popular/" ++ ds ∧ ds ≠ [] ∧ Forall (λ c, is_digit c = true) ds.
Proof.
  unfold match_here. destruct (strip_prefix _ s) as [r|]; [|done].
  pose proof (take_digits_digits r) as Hds.
  destruct (take_digits r) as [|d ds]; [done|].
  intros [= <-]. by exists (d :: ds).
Qed.

Lemma match_all_shape skip s m :
  m ∈ match_all skip s →
  ∃ ds, m = lit "popular/" ++ ds ∧ ds ≠ [] ∧ Forall (λ c, is_digit c = true) ds.
Proof.
  revert skip. induction s as [|c s IH]; intros skip; [by intros ?%elem_of_nil|].
  cbn [match_all]. destruct skip as [|skip]; [|apply IH].
  destruct (match_here (c :: s)) as [m'|] eqn:Hhere; [|apply IH].
  intros [->|Hm]%elem_of_cons; [by eapply match_here_shape|by eapply IH].
Qed.

(** X17 (the scraped ids): every id scraped from a search page is a
    sequence of digits, and not empty. *)
Lemma matchedIds_digits html categoryId :
  categoryId ∈ matchedIds html →
  categoryId ≠ [] ∧ Forall (λ c, is_digit c = true) categoryId.
Proof.
  unfold matchedIds. intros (m & -> & Hm)%list_elem_of_fmap.
  by destruct (match_all_shape _ _ _ Hm) as (ds & -> & Hne & Hds).
Qed.

Lemma matchedIds_digits_witness :
  lit "12" ≠ [] ∧ Forall (λ c, is_digit c = true) (lit "12").
Proof.
  apply (matchedIds_digits (lit "<a href=/popular/12>x</a>") (lit "12")).
  vm_compute. by left.
Defined.

(** A scraped id holds no ampersand. *)
Lemma matchedIds_amp_free html categoryId :
  categoryId ∈ matchedIds html → 38%N ∉ categoryId.
Proof.
  intros [_ Hds]%matchedIds_digits Hin.
  rewrite Forall_forall in Hds. by specialize (Hds _ Hin).
Qed.

(** The search resumes after a match, and a link with no digit is none. *)
Example matchedIds_sample :
  matchedIds (lit "<a href=/popular/12>x</a> popular/ popular/popular/99x7") =
  [lit "12"; lit "99"].
Proof. by vm_compute. Qed.

End Ids.

(** ** The loop over the category ids *)

Section Search.
Import App.
Context (h : Host) (f : Filters).

Lemma found_nonempty k ids : Forall (λ c, clues c ≠ []) (found h f k ids).
Proof.
  revert k. induction ids as [|categoryId ids IH]; intros k; simpl; [constructor|].
  unfold category_of, searchClues. simpl.
  destruct (fetch_json _ _ _) as [cl|]; [|apply IH].
  destruct (normalizedClues cl); [apply IH|]. by constructor.
Qed.

Lemma found_app k ids1 ids2 :
  found h f k (ids1 ++ ids2) = found h f k ids1 ++ found h f (k + length ids1) ids2.
Proof.
  revert k. induction ids1 as [|categoryId ids1 IH]; intros k; simpl.
  - by rewrite Nat.add_0_r.
  - rewrite IH, Nat.add_succ_r. by destruct (category_of _ _ _ _).
Qed.

(** When the loop ends normally, the array holds the first
    [MAX_CATEGORIES] records found. *)
Lemma for_categoryId_Some ids k cats reqs reqs' cs :
  for_categoryId h f k ids cats reqs = (reqs', Some cs) →
  (length cats < MAX_CATEGORIES)%nat →
  cs = take MAX_CATEGORIES (cats ++ found h f k ids).
Proof.
  revert k cats reqs. induction ids as [|categoryId ids IH]; intros k cats reqs; simpl.
  - intros [= _ <-] Hlen. rewrite app_nil_r, take_ge; [done|lia].
  - unfold category_of, searchClues. simpl.
    destruct (fetch_json _ _ _) as [cl|]; [|done].
    destruct (normalizedClues cl) as [|first others]; [by apply IH|].
    case_bool_decide as Hfull.
    + intros [= _ <-] Hlen. rewrite length_app in Hfull. simpl in Hfull.
      rewrite (cons_middle _ cats (found _ _ _ _)), (assoc_L (++)).
      symmetry. apply take_app_length'.
      rewrite length_app. simpl. unfold MAX_CATEGORIES in *. lia.
    + intros Hloop Hlen. rewrite (cons_middle _ cats (found _ _ _ _)), (assoc_L (++)).
      eapply IH; [done|]. rewrite length_app in *. simpl in *. lia.
Qed.

(** When every clues request is answered, the loop ends normally. *)
Lemma for_categoryId_answered ids k cats reqs :
  (∀ j url, is_Some (fetch_json h j url)) →
  ∃ reqs' cs, for_categoryId h f k ids cats reqs = (reqs', Some cs).
Proof.
  intros Hok. revert k cats reqs.
  induction ids as [|categoryId ids IH]; intros k cats reqs; simpl; [by eauto|].
  unfold searchClues. simpl.
  destruct (Hok k (constructedUrl (now h k) f categoryId)) as [cl ->].
  destruct (normalizedClues cl); [apply IH|].
  case_bool_decide; [by eauto|apply IH].
Qed.

(** A rejected clues request ends the loop: the ids after it are not
    requested. *)
Lemma for_categoryId_None ids n k cats reqs categoryId :
  ids !! n = Some categoryId →
  (∀ j idj, (j < n)%nat → ids !! j = Some idj →
     is_Some (fetch_json h (k + j) (constructedUrl (now h (k + j)) f idj))) →
  (length cats + length (found h f k (take n ids)) < MAX_CATEGORIES)%nat →
  fetch_json h (k + n) (constructedUrl (now h (k + n)) f categoryId) = None →
  for_categoryId h f k ids cats reqs =
    (reqs ++ request_urls h f k (take (S n) ids), None).
Proof.
  revert n k cats reqs.
  induction ids as [|id0 ids IH]; intros n k cats reqs; [done|].
  destruct n as [|n]; simpl; unfold searchClues; simpl.
  - intros [= ->] _ _. rewrite Nat.add_0_r. by intros ->.
  - intros Hn Hok Hlen Hfail.
    destruct (Hok 0%nat id0) as [cl Hcl]; [lia|done|].
    rewrite Nat.add_0_r in Hcl. unfold category_of, searchClues in Hlen.
    simpl in Hlen. rewrite Hcl in *.
    assert (∀ j idj, (j < n)%nat → ids !! j = Some idj →
      is_Some (fetch_json h (S k + j) (constructedUrl (now h (S k + j)) f idj))) as Hok'.
    { intros j idj Hj Hidj. replace (S k + j)%nat with (k + S j)%nat by lia.
      apply Hok; [lia|done]. }
    replace (k + S n)%nat with (S k + n)%nat in Hfail by lia.
    destruct (normalizedClues cl) as [|first others].
    + rewrite (IH n (S k) cats (reqs ++ [_])); [|done..].
      by rewrite <- (assoc_L (++)).
    + simpl in Hlen. rewrite bool_decide_eq_false_2.
      2: { rewrite length_app. simpl. lia. }
      rewrite (IH n (S k) (cats ++ [_]) (reqs ++ [_])); [|done..| |done].
      * by rewrite <- (assoc_L (++)).
      * rewrite length_app. simpl. lia.
Qed.

End Search.

(** ** [onSearch] *)

Section OnSearch.
Import App.

(** A search rejected before line 140 (by a request, or by the encoding of
    the text) leaves the state as its first [setState] made it, and the
    storage as it was. *)
Lemma onSearch_Rejected h w w' e :
  onSearch h w = (w', Rejected e) →
  e ≠ StorageError →
  state w' = set_searching true (state w) ∧ storage w' = storage w.
Proof.
  unfold onSearch.
  destruct (encodeURIComponent _ _) as [query|]; [|by intros [= <- _]].
  destruct (fetch_text _ _) as [html|]; [|by intros [= <- _]].
  destruct (for_categoryId _ _ _ _ _ _) as [reqs' [cs|]]; [|by intros [= <- _]].
  destruct (setItem _ _); [done|]. by intros [= _ <-].
Qed.

(** A search whose requests are all answered, and whose snapshot the
    storage takes, is fulfilled. *)
Lemma onSearch_Fulfilled h w :
  is_Some (encodeURIComponent h (searchText (state w))) →
  (∀ url, is_Some (fetch_text h url)) →
  (∀ j url, is_Some (fetch_json h j url)) →
  (∀ text, setItem h text = true) →
  ∃ w', onSearch h w = (w', Fulfilled).
Proof.
  intros [query Hq] Htext Hjson Hset. unfold onSearch. simpl. rewrite Hq.
  destruct (Htext (searchUrl query)) as [html ->].
  destruct (for_categoryId_answered h (filters (state w)) (matchedIds html) 0 []
              (requests w ++ [searchUrl query]) Hjson) as (reqs' & cs & ->).
  rewrite Hset. by eauto.
Qed.



(** C5, as the code has it: when the clues request for a scraped id is
    rejected (the requests for the ids before it answered, and fewer than 12
    records found so far), [onSearch] itself is rejected: the ids after it
    are not requested, and neither the categories of the state nor the
    storage change. *)
Theorem onSearch_rejected_clues_request h w query html n categoryId :
  encodeURIComponent h (searchText (state w)) = Some query →
  fetch_text h (searchUrl query) = Some html →
  matchedIds html !! n = Some categoryId →
  (∀ j idj, (j < n)%nat → matchedIds html !! j = Some idj →
     is_Some (searchClues h (filters (state w)) j idj).2) →
  (length (found h (filters (state w)) 0 (take n (matchedIds html))) < MAX_CATEGORIES)%nat →
  (searchClues h (filters (state w)) n categoryId).2 = None →
  ∃ w', onSearch h w = (w', Rejected RetrievalError) ∧
        requests w' =
          requests w ++ searchUrl query ::
            request_urls h (filters (state w)) 0 (take (S n) (matchedIds html)) ∧
        categories (state w') = categories (state w) ∧
        storage w' = storage w.
Proof.
  intros Hq Hhtml Hn Hok Hlen Hfail. unfold onSearch. simpl. rewrite Hq, Hhtml.
  rewrite (for_categoryId_None h (filters (state w)) (matchedIds html) n 0 []
             (requests w ++ [searchUrl query]) categoryId); [|done..].
  eexists. split; [done|]. simpl. split; [|done].
  by rewrite <- (assoc_L (++)).
Qed.

Lemma onSearch_rejected_clues_request_witness :
  ∃ w', onSearch Examples.failing Examples.started = (w', Rejected RetrievalError) ∧
        requests w' =
          requests Examples.started ++ searchUrl (lit "dogs") ::
            request_urls Examples.failing (filters (state Examples.started)) 0
              (take 1 (matchedIds Examples.page2)) ∧
        categories (state w') = categories (state Examples.started) ∧
        storage w' = storage Examples.started.
Proof.
  apply (onSearch_rejected_clues_request Examples.failing Examples.started
           (lit "dogs") Examples.page2 0 (lit "1")).
  - reflexivity.
  - reflexivity.
  - by vm_compute.
  - intros j idj Hj. lia.
  - vm_compute. lia.
  - reflexivity.
Defined.

(** C5 as stated fails: the first of two clues requests is rejected and the
    second would be answered with clues, yet the search is rejected as a
    whole, the second id is never requested and no category is kept. *)
Lemma rejected_clues_request_ends_search :
  matchedIds Examples.page2 = [lit "1"; lit "2"] ∧
  is_Some (category_of Examples.failing (filters (state Examples.started)) 1 (lit "2")) ∧
  (onSearch Examples.failing Examples.started).2 = Rejected RetrievalError ∧
  requests (onSearch Examples.failing Examples.started).1 =
    [searchUrl (lit "dogs");
     constructedUrl (lit "2020-05-17T10:00:00.000Z") (filters INITIAL_STATE) (lit "1")] ∧
  categories (state (onSearch Examples.failing Examples.started).1) = [].
Proof.
  split; [by vm_compute|]. split; [by vm_compute; eexists|].
  split; [by vm_compute|]. split; by vm_compute.
Qed.

(** C6 on a search whose first request is rejected: the search is rejected,
    and the state it leaves still has [searching] set; so has the state
    after a rejected clues request. *)
Lemma rejected_search_leaves_searching_set :
  (onSearch Examples.offline Examples.started).2 = Rejected RetrievalError ∧
  searching (state (onSearch Examples.offline Examples.started).1) = true ∧
  (onSearch Examples.failing Examples.started).2 = Rejected RetrievalError ∧
  searching (state (onSearch Examples.failing Examples.started).1) = true.
Proof. repeat split; by vm_compute. Qed.

End OnSearch.

(** ** The constructor *)

Section Startup.
Import App.

Lemma skip_ws_app ws s : forallb is_ws ws = true → skip_ws (ws ++ s) = skip_ws s.
Proof.
  induction ws as [|c ws IH]; [done|]. cbn [forallb app skip_ws].
  intros [Hc Hws]%andb_prop. rewrite Hc. by apply IH.
Qed.

Lemma skip_ws_all ws : forallb is_ws ws = true → skip_ws ws = [].
Proof.
  induction ws as [|c ws IH]; [done|]. cbn [forallb skip_ws].
  intros [Hc Hws]%andb_prop. rewrite Hc. by apply IH.
Qed.

Lemma skip_ws_idemp s : skip_ws (skip_ws s) = skip_ws s.
Proof.
  induction s as [|c s IH]; [done|]. cbn [skip_ws].
  destruct (is_ws c) eqn:Hc; [done|]. cbn [skip_ws]. by rewrite Hc.
Qed.

Lemma parse_value_skip_ws fuel s : parse_value fuel (skip_ws s) = parse_value fuel s.
Proof. destruct fuel; [done|]. simpl. by rewrite skip_ws_idemp. Qed.

Lemma parse_number_no_start c rest :
  c ≠ 45%N → is_digit c = false → parse_number (c :: rest) = None.
Proof.
  intros Hminus Hdigit. unfold parse_number.
  assert (take_digits (c :: rest) = []) as Hnone by (cbn; by rewrite Hdigit).
  assert (c ≠ 48%N) as Hzero by (by intros ->).
  destruct c as [|p]; [unfold parse_digits; by rewrite Hnone|].
  do 6 (destruct p as [p|p|]; try (unfold parse_digits; by rewrite Hnone)); done.
Qed.

Lemma parse_fuel (text : list N) : (2 * length text + 2 = S (S (2 * length text)))%nat.
Proof. lia. Qed.

Lemma parse_empty text : skip_ws text = [] → JSON.parse text = None.
Proof.
  intros Hws. unfold JSON.parse. rewrite parse_fuel.
  cbn [parse_value]. by rewrite Hws.
Qed.

Lemma parse_no_value text c rest :
  skip_ws text = c :: rest → value_start c = false → JSON.parse text = None.
Proof.
  intros Hws Hstart. unfold JSON.parse. rewrite parse_fuel.
  cbn [parse_value]. rewrite Hws.
  apply orb_false_iff in Hstart as [Hc Hdigit].
  apply bool_decide_eq_false in Hc.
  rewrite !bool_decide_eq_false_2 by (intros ->; apply Hc; set_solver).
  rewrite parse_number_no_start; [done| |done].
  intros ->. apply Hc. set_solver.
Qed.

Lemma is_ws_cases c : is_ws c = true → c = 32%N ∨ c = 9%N ∨ c = 10%N ∨ c = 13%N.
Proof. apply bool_decide_eq_true. Qed.

Lemma parse_falsy fuel word after :
  word ∈ falsy_texts → forallb is_ws after = true →
  ∃ v, parse_value (S fuel) (word ++ after) = Some (v, after) ∧ truthy_val v = false.
Proof.
  intros Hword Hafter.
  assert (after = [] ∨ ∃ c r, after = c :: r ∧ (c = 32%N ∨ c = 9%N ∨ c = 10%N ∨ c = 13%N))
    as [->|(c & r & -> & Hc)].
  { destruct after as [|c r]; [by left|]. right. exists c, r. split; [done|].
    apply is_ws_cases. cbn [forallb] in Hafter. by apply andb_prop in Hafter as [? _]. }
  - unfold falsy_texts in Hword. rewrite !elem_of_cons, elem_of_nil in Hword.
    destruct Hword as [->|[->|[->|[->|[->|[->|[->|[]]]]]]]];
      eexists; (split; [vm_compute; reflexivity|vm_compute; reflexivity]).
  - unfold falsy_texts in Hword. rewrite !elem_of_cons, elem_of_nil in Hword.
    destruct Hword as [->|[->|[->|[->|[->|[->|[->|[]]]]]]]];
      destruct Hc as [->|[->|[->| ->]]];
      eexists; (split; [vm_compute; reflexivity|vm_compute; reflexivity]).
Qed.

Lemma parse_padded_falsy before word after :
  forallb is_ws before = true → forallb is_ws after = true → word ∈ falsy_texts →
  ∃ v, JSON.parse (before ++ word ++ after) = Some v ∧ truthy_val v = false.
Proof.
  intros Hbefore Hafter Hword. unfold JSON.parse. rewrite parse_fuel.
  rewrite <- parse_value_skip_ws, skip_ws_app, parse_value_skip_ws by done.
  destruct (parse_falsy (S (2 * length (before ++ word ++ after))) word after)
    as (v & -> & Hv); [done..|].
  exists v. by rewrite skip_ws_all.
Qed.

(** C7, as the code has it: with no snapshot in the storage the state is
    the initial state.  A snapshot that is no JSON text is not recovered
    from: [JSON.parse] throws in the constructor; so for every text that is
    empty or white space only, and for every text whose first unit after
    the white space cannot start a JSON value.  A snapshot that is JSON
    text becomes the state as it is, whatever it holds, unless its value is
    falsy, which gives the initial state; so for [null], [false], a zero, a
    number that rounds to zero and the empty string, with any white space
    around them. *)
Theorem constructor_initial_or_snapshot :
  constructor None = Built (spread (Val_of_State INITIAL_STATE)) ∧
  (∀ text, JSON.parse text = None → constructor (Some text) = SyntaxError) ∧
  (∀ text savedState, JSON.parse text = Some savedState →
     constructor (Some text) =
       Built (if truthy_val savedState then spread savedState
              else spread (Val_of_State INITIAL_STATE))) ∧
  (∀ text, skip_ws text = [] → constructor (Some text) = SyntaxError) ∧
  (∀ text c rest, skip_ws text = c :: rest → value_start c = false →
     constructor (Some text) = SyntaxError) ∧
  (∀ before word after,
     forallb is_ws before = true → forallb is_ws after = true →
     word ∈ falsy_texts →
     constructor (Some (before ++ word ++ after)) =
       Built (spread (Val_of_State INITIAL_STATE))).
Proof.
  split; [by vm_compute|]. split; [|split; [|split; [|split]]].
  - intros text Hparse. unfold constructor. simpl. by rewrite Hparse.
  - intros text v Hparse. unfold constructor. simpl. rewrite Hparse.
    by destruct (truthy_val v).
  - intros text Hws. unfold constructor. simpl. by rewrite parse_empty.
  - intros text c rest Hws Hstart. unfold constructor. simpl.
    by rewrite (parse_no_value text c rest).
  - intros before word after Hbefore Hafter Hword. unfold constructor. simpl.
    destruct (parse_padded_falsy before word after) as (v & -> & ->); done.
Qed.

Lemma constructor_initial_or_snapshot_witness :
  constructor (Some (lit "{oops")) = SyntaxError ∧
  constructor (Some (lit "[7]")) = Built [(lit "0", VNumber (lit "7"))] ∧
  constructor (Some (lit "null")) = Built (spread (Val_of_State INITIAL_STATE)) ∧
  constructor (Some (lit "  ")) = SyntaxError ∧
  constructor (Some (lit " state")) = SyntaxError ∧
  constructor (Some (lit " 1e-400 ")) = Built (spread (Val_of_State INITIAL_STATE)).
Proof.
  destruct constructor_initial_or_snapshot
    as (_ & Hthrow & Hload & Hempty & Hstart & Hfalsy).
  split; [|split; [|split; [|split; [|split]]]].
  - apply Hthrow. by vm_compute.
  - apply (Hload (lit "[7]") (VArray [VNumber (lit "7")])). by vm_compute.
  - apply (Hload (lit "null") VNull). by vm_compute.
  - apply Hempty. by vm_compute.
  - apply (Hstart (lit " state") 115%N (lit "tate")); by vm_compute.
  - apply (Hfalsy (lit " ") (lit "1e-400") (lit " ")); [done..|].
    unfold falsy_texts. by repeat constructor.
Defined.

(** C7 as stated fails: a snapshot that is no JSON text makes the
    constructor throw, and one that is JSON text but no state of the
    application (here an empty object) is taken for the state. *)
Lemma malformed_snapshot_is_not_replaced :
  JSON.parse (lit "{oops") = None ∧
  constructor (Some (lit "{oops")) = SyntaxError ∧
  constructor (Some (lit "{}")) = Built [] ∧
  constructor (Some (lit "{}")) ≠ Built (spread (Val_of_State INITIAL_STATE)).
Proof.
  split; [by vm_compute|]. split; [by vm_compute|]. split; [by vm_compute|].
  by vm_compute.
Qed.

(** The properties of a snapshot come in the order an object lists them:
    the array indices by number, then the other keys as written; a key
    written twice keeps its first place and its last value. *)
Lemma constructor_property_order :
  constructor (Some (lit "{" ++ [34%N] ++ lit "b" ++ [34%N] ++ lit ":1," ++
                     [34%N] ++ lit "10" ++ [34%N] ++ lit ":2," ++
                     [34%N] ++ lit "2" ++ [34%N] ++ lit ":3," ++
                     [34%N] ++ lit "b" ++ [34%N] ++ lit ":4," ++
                     [34%N] ++ lit "01" ++ [34%N] ++ lit ":5}")) =
    Built [(lit "2", VNumber (lit "3")); (lit "10", VNumber (lit "2"));
           (lit "b", VNumber (lit "4")); (lit "01", VNumber (lit "5"))].
Proof. by vm_compute. Qed.

End Startup.

(** ** The [Category] card *)

Section Card.
Import CategoryCard.

Lemma mask_length s : length (mask s) = length s.
Proof. unfold mask. by rewrite length_fmap. Qed.

Lemma mask_lookup s i c :
  s !! i = Some c → mask s !! i = Some (if is_whitespace c then c else 42%N).
Proof. unfold mask. intros Hi. by rewrite list_lookup_fmap, Hi. Qed.

(** The hint of a string of three units or more: the first unit, the masked
    middle, the last unit. *)
Lemma getHint_long first middle last c :
  answer c = first :: middle ++ [last] → middle ≠ [] →
  getHint (Some c) = first :: mask middle ++ [last].
Proof.
  intros Hc Hm. unfold getHint. rewrite Hc.
  assert (length (first :: middle ++ [last]) = S (S (length middle))) as Hlen.
  { simpl. rewrite length_app. simpl. lia. }
  rewrite bool_decide_eq_false_2.
  2: { rewrite Hlen. destruct middle; [done|simpl; lia]. }
  unfold char_at, substring. rewrite Hlen. simpl.
  rewrite Nat.sub_0_r, drop_0, take_app_length.
  by rewrite drop_app_length.
Qed.

(** C9: the hint has the length of the answer.  For an answer of three units
    or more the first and the last unit are those of the answer and a unit in
    between is a star unless it is white space; for a shorter answer every
    unit is a star unless it is white space.  The hint for cat is c*t, the
    hint for ox is two stars, and there is no hint text for no clue. *)
Theorem getHint_masks (c : Clue) :
  length (getHint (Some c)) = length (answer c) ∧
  (∀ i u, answer c !! i = Some u →
     getHint (Some c) !! i =
       Some (if bool_decide (3 ≤ length (answer c) ∧ (i = 0 ∨ i = length (answer c) - 1))%nat
             then u
             else if is_whitespace u then u else 42%N)) ∧
  (answer c = lit "cat" → getHint (Some c) = lit "c*t") ∧
  (answer c = lit "ox" → getHint (Some c) = lit "**") ∧
  getHint None = [].
Proof.
  split; [|split; [|split; [|split]]].
  - unfold getHint. case_bool_decide as Hlen; [apply mask_length|].
    unfold char_at, substring.
    rewrite !length_app, mask_length, !length_take, !length_drop. lia.
  - intros i u Hi. unfold getHint.
    case_bool_decide as Hlen.
    + rewrite bool_decide_eq_false_2 by lia. by apply mask_lookup.
    + pose proof (lookup_lt_Some _ _ _ Hi) as Hlt.
      unfold char_at, substring.
      destruct (decide (i = 0%nat)) as [->|Hi0].
      { rewrite bool_decide_eq_true_2 by lia.
        destruct (answer c); [done|]. by simpl in *. }
      destruct (decide (i = length (answer c) - 1)%nat) as [->|Hilast].
      { rewrite bool_decide_eq_true_2 by lia.
        rewrite lookup_app_r; rewrite length_take, length_drop; [|lia].
        rewrite lookup_app_r; rewrite mask_length, length_take, !length_drop; [|lia].
        rewrite lookup_take_lt, lookup_drop by lia.
        rewrite <- Hi. f_equal. lia. }
      rewrite bool_decide_eq_false_2 by lia.
      rewrite lookup_app_r; rewrite length_take, length_drop; [|lia].
      rewrite lookup_app_l; [|rewrite mask_length, length_take, length_drop; lia].
      apply mask_lookup.
      rewrite lookup_take_lt, lookup_drop by lia.
      rewrite <- Hi. f_equal. lia.
  - unfold getHint. by intros ->.
  - unfold getHint. by intros ->.
  - done.
Qed.

Lemma getHint_masks_witness :
  getHint (Some (Examples.clue "Q1" null)) !! 1%nat = Some 42%N ∧
  getHint (Some (Examples.set_answer (Examples.clue "Q1" null) (lit "cat"))) = lit "c*t" ∧
  getHint (Some (Examples.set_answer (Examples.clue "Q1" null) (lit "ox"))) = lit "**".
Proof.
  split; [|split].
  - destruct (getHint_masks (Examples.clue "Q1" null)) as (_ & Hunit & _).
    apply (Hunit 1%nat 110%N). reflexivity.
  - destruct (getHint_masks (Examples.set_answer (Examples.clue "Q1" null) (lit "cat")))
      as (_ & _ & Hcat & _).
    apply Hcat. reflexivity.
  - destruct (getHint_masks (Examples.set_answer (Examples.clue "Q1" null) (lit "ox")))
      as (_ & _ & _ & Hox & _).
    apply Hox. reflexivity.
Defined.

(** C10: the card shows a button for each of the first five clues of the
    category and for no other: the buttons are at most five, the k-th button
    is that of the k-th clue, they come in the order of the clue list, and
    there is no button from the sixth place on. *)
Theorem listItems_first_five (props : Props) (st : State) :
  (length (listItems props st) ≤ 5)%nat ∧
  length (listItems props st) = (length (App.clues (state_category st)) `min` 5)%nat ∧
  onClick <$> listItems props st = take 5 (App.clues (state_category st)) ∧
  (∀ k, (k < 5)%nat →
     listItems props st !! k = button props st <$> App.clues (state_category st) !! k) ∧
  (∀ k, (5 ≤ k)%nat → listItems props st !! k = None).
Proof.
  unfold listItems. split; [|split; [|split; [|split]]].
  - rewrite length_fmap, length_take. lia.
  - rewrite length_fmap, length_take. lia.
  - rewrite <- list_fmap_compose. apply list_fmap_id.
  - intros k Hk. by rewrite list_lookup_fmap, lookup_take_lt.
  - intros k Hk. apply lookup_ge_None_2. rewrite length_fmap, length_take. lia.
Qed.

Lemma listItems_first_five_witness :
  listItems Examples.card_props Examples.card_state !! 5%nat = None ∧
  listItems Examples.card_props Examples.card_state !! 4%nat =
    button Examples.card_props Examples.card_state <$>
      App.clues (state_category Examples.card_state) !! 4%nat.
Proof.
  destruct (listItems_first_five Examples.card_props Examples.card_state)
    as (_ & _ & _ & Hshown & Hhidden).
  split; [apply Hhidden; lia|apply Hshown; lia].
Defined.

End Card.

(** ** The clues query *)

Section Query.
Import App.

Lemma after_app_cons sep p r : sep ∉ p → after sep (p ++ sep :: r) = r.
Proof.
  induction p as [|c p IH]; simpl.
  - by rewrite N.eqb_refl.
  - intros [Hc Hp]%not_elem_of_cons.
    destruct (N.eqb_spec c sep) as [->|_]; [done|]. by apply IH.
Qed.

Lemma before_app_cons sep p r : sep ∉ p → before sep (p ++ sep :: r) = p.
Proof.
  induction p as [|c p IH]; simpl.
  - by rewrite N.eqb_refl.
  - intros [Hc Hp]%not_elem_of_cons.
    destruct (N.eqb_spec c sep) as [->|_]; [done|]. by rewrite IH.
Qed.

Lemma split_on_whole sep p : sep ∉ p → split_on sep p = [p].
Proof.
  induction p as [|c p IH]; simpl; [done|].
  intros [Hc Hp]%not_elem_of_cons.
  destruct (N.eqb_spec c sep) as [->|_]; [done|]. by rewrite IH.
Qed.

Lemma split_on_app_cons sep p r :
  sep ∉ p → split_on sep (p ++ sep :: r) = p :: split_on sep r.
Proof.
  induction p as [|c p IH]; simpl.
  - by rewrite N.eqb_refl.
  - intros [Hc Hp]%not_elem_of_cons.
    destruct (N.eqb_spec c sep) as [->|_]; [done|]. by rewrite IH.
Qed.

Lemma after_app_sep sep p r : sep ∉ p → after sep (p ++ [sep] ++ r) = r.
Proof. apply after_app_cons. Qed.

Lemma before_app_sep sep p r : sep ∉ p → before sep (p ++ [sep] ++ r) = p.
Proof. apply before_app_cons. Qed.

Lemma split_on_app_sep sep p r :
  sep ∉ p → split_on sep (p ++ [sep] ++ r) = p :: split_on sep r.
Proof. apply split_on_app_cons. Qed.

(** A parameter [name=v] read back. *)
Lemma param_read (name : string) (v : jsstring) :
  61%N ∉ lit name →
  (before 61 ((lit name ++ [61%N]) ++ v), after 61 ((lit name ++ [61%N]) ++ v)) =
  (lit name, v).
Proof.
  intros Hname. rewrite <- (assoc_L (++)).
  by rewrite before_app_sep, after_app_sep.
Qed.

(** A parameter [name=v] holds no ampersand when [v] holds none, and is not
    empty. *)
Lemma param_amp_free (name : string) (v : jsstring) :
  38%N ∉ lit name → 38%N ∉ v → 38%N ∉ (lit name ++ [61%N]) ++ v.
Proof.
  intros Hn Hv. rewrite !not_elem_of_app. split_and!; [done| |done].
  by intros [=]%list_elem_of_singleton.
Qed.

Lemma param_nonempty (name : string) (v : jsstring) : (lit name ++ [61%N]) ++ v ≠ [].
Proof. by destruct (lit name). Qed.

Lemma or_else_unset (d : option jsstring) (b : jsstring) :
  d = None ∨ d = Some [] → or_else d b = b.
Proof. by intros [-> | ->]. Qed.

Lemma or_else_set (d b : jsstring) : d ≠ [] → or_else (Some d) b = d.
Proof. by destruct d. Qed.

(** C8: the URL of the clues request.  Its query is [max_date], [min_date]
    and [category], in this order, and then [value] with the filter's text
    unless that is the text any, where nothing follows the last ampersand.
    A date that is not set (or empty) is replaced by the current time for
    [max_date] and by the epoch for [min_date].  Read back as parameters
    (no ampersand being in the dates, the id and the value), the query has
    those three and, unless the filter is any, [value] as the fourth. *)
Theorem constructedUrl_parameters (now_iso : jsstring) (f : Filters) (categoryId : jsstring) :
  constructedUrl now_iso f categoryId =
    lit "http://jservice.io/api/clues?" ++
    lit "max_date=" ++ or_else (max_date f) now_iso ++ lit "&" ++
    lit "min_date=" ++ or_else (min_date f) epoch ++ lit "&" ++
    lit "category=" ++ categoryId ++ lit "&" ++
    (if bool_decide (value f = lit "any") then [] else lit "value=" ++ value f) ∧
  (max_date f = None ∨ max_date f = Some [] → or_else (max_date f) now_iso = now_iso) ∧
  (min_date f = None ∨ min_date f = Some [] → or_else (min_date f) epoch = epoch) ∧
  (∀ d, d ≠ [] → max_date f = Some d → or_else (max_date f) now_iso = d) ∧
  (∀ d, d ≠ [] → min_date f = Some d → or_else (min_date f) epoch = d) ∧
  (38%N ∉ or_else (max_date f) now_iso →
   38%N ∉ or_else (min_date f) epoch →
   38%N ∉ categoryId →
   38%N ∉ value f →
   query_params (constructedUrl now_iso f categoryId) =
     [(lit "max_date", or_else (max_date f) now_iso);
      (lit "min_date", or_else (min_date f) epoch);
      (lit "category", categoryId)] ++
     (if bool_decide (value f = lit "any") then [] else [(lit "value", value f)])).
Proof.
  split; [|split; [|split; [|split; [|split]]]].
  - unfold constructedUrl, searchClues_parts. cbn [join].
    by rewrite <- !(assoc_L (++)).
  - apply or_else_unset.
  - apply or_else_unset.
  - intros d Hd ->. by apply or_else_set.
  - intros d Hd ->. by apply or_else_set.
  - intros Hmax Hmin Hid Hvalue.
    unfold query_params, constructedUrl, searchClues_parts. cbn [join].
    change (lit "http://jservice.io/api/clues?")
      with (lit "http://jservice.io/api/clues" ++ [63%N]).
    rewrite <- (assoc_L (++) (lit "http://jservice.io/api/clues")).
    rewrite after_app_sep by decide_now.
    change (lit "&") with [38%N].
    change (lit "max_date=") with (lit "max_date" ++ [61%N]).
    change (lit "min_date=") with (lit "min_date" ++ [61%N]).
    change (lit "category=") with (lit "category" ++ [61%N]).
    change (lit "value=") with (lit "value" ++ [61%N]).
    rewrite !split_on_app_sep by (apply param_amp_free; [decide_now|done]).
    rewrite !filter_cons_True by apply param_nonempty.
    rewrite !fmap_cons, !param_read by decide_now.
    case_bool_decide as Hany.
    + simpl split_on. by rewrite filter_cons_False by (by intros []).
    + rewrite split_on_whole by (apply param_amp_free; [decide_now|done]).
      rewrite filter_cons_True by apply param_nonempty.
      rewrite filter_nil, !fmap_cons, param_read by decide_now. done.
Qed.

Lemma constructedUrl_parameters_witness :
  query_params
    (constructedUrl (lit "2020-05-17T10:00:00.000Z") (filters INITIAL_STATE) (lit "7")) =
  [(lit "max_date", lit "2020-05-17T10:00:00.000Z");
   (lit "min_date", epoch);
   (lit "category", lit "7")] ∧
  query_params
    (constructedUrl (lit "2020-05-17T10:00:00.000Z") Examples.filters300 (lit "7")) =
  [(lit "max_date", lit "2019-12-31");
   (lit "min_date", epoch);
   (lit "category", lit "7");
   (lit "value", lit "300")].
Proof.
  split.
  - destruct (constructedUrl_parameters (lit "2020-05-17T10:00:00.000Z")
                (filters INITIAL_STATE) (lit "7")) as (_ & _ & _ & _ & _ & Hq).
    apply Hq; decide_now.
  - destruct (constructedUrl_parameters (lit "2020-05-17T10:00:00.000Z")
                Examples.filters300 (lit "7")) as (_ & _ & _ & _ & _ & Hq).
    apply Hq; decide_now.
Defined.

End Query.

(** ** More on [onSearch] *)

Section SearchMore.
Import App.

(** Whatever the outcome, the URLs the loop has requested are those of the
    first [m] ids, in order. *)
Lemma for_categoryId_requests h f ids k cats reqs :
  ∃ m, (m ≤ length ids)%nat ∧
       (for_categoryId h f k ids cats reqs).1 = reqs ++ request_urls h f k (take m ids).
Proof.
  revert k cats reqs. induction ids as [|categoryId ids IH]; intros k cats reqs.
  - exists 0%nat. simpl. by rewrite app_nil_r.
  - cbn [for_categoryId]. unfold searchClues. cbn [fst snd].
    destruct (fetch_json h k _) as [cl|].
    2: { exists 1%nat. simpl. split; [lia|done]. }
    assert (∀ cats', ∃ m, (m ≤ length (categoryId :: ids))%nat ∧
      (for_categoryId h f (S k) ids cats'
         (reqs ++ [constructedUrl (now h k) f categoryId])).1 =
      reqs ++ request_urls h f k (take m (categoryId :: ids))) as Hrest.
    { intros cats'. destruct (IH (S k) cats' (reqs ++ [constructedUrl (now h k) f categoryId]))
        as (m & Hm & ->).
      exists (S m). simpl. split; [lia|]. by rewrite <- (assoc_L (++)). }
    destruct (normalizedClues cl) as [|first others]; [apply Hrest|].
    case_bool_decide; [|apply Hrest].
    exists 1%nat. simpl. split; [lia|done].
Qed.

(** When the loop ends normally it has requested the first [m] ids, holds
    the records found for them, and has left ids out only with the array
    full. *)
Lemma for_categoryId_stops h f ids k cats reqs reqs' cs :
  for_categoryId h f k ids cats reqs = (reqs', Some cs) →
  (length cats < MAX_CATEGORIES)%nat →
  ∃ m, (m ≤ length ids)%nat ∧
       reqs' = reqs ++ request_urls h f k (take m ids) ∧
       cs = cats ++ found h f k (take m ids) ∧
       ((m < length ids)%nat → length cs = MAX_CATEGORIES).
Proof.
  revert k cats reqs. induction ids as [|categoryId ids IH]; intros k cats reqs.
  - simpl. intros [= <- <-] _. exists 0%nat. simpl.
    rewrite !app_nil_r. split; [done|]. split; [done|]. split; [done|lia].
  - cbn [for_categoryId]. unfold searchClues. cbn [fst snd].
    destruct (fetch_json h k _) as [cl|] eqn:Hcl; [|done].
    destruct (normalizedClues cl) as [|first others] eqn:Hnorm.
    + intros Hloop Hlen. destruct (IH _ _ _ Hloop Hlen) as (m & Hm & -> & -> & Hfull).
      exists (S m). cbn [take request_urls found length].
      unfold category_of, searchClues. cbn [snd]. rewrite Hcl, Hnorm.
      split; [lia|]. split; [by rewrite <- (assoc_L (++))|]. split; [done|].
      intros ?. apply Hfull. lia.
    + case_bool_decide as Hcap.
      * intros [= <- <-] Hlen. exists 1%nat. cbn [take request_urls found length].
        unfold category_of, searchClues. cbn [snd]. rewrite Hcl, Hnorm. simpl.
        split; [lia|]. split; [done|]. split; [done|].
        intros _. rewrite length_app in *. simpl in *. unfold MAX_CATEGORIES in *. lia.
      * intros Hloop Hlen.
        destruct (IH _ _ _ Hloop) as (m & Hm & -> & -> & Hfull).
        { rewrite length_app in *. simpl in *. lia. }
        exists (S m). cbn [take request_urls found length].
        unfold category_of, searchClues. cbn [snd]. rewrite Hcl, Hnorm.
        split; [lia|]. split; [by rewrite <- (assoc_L (++))|].
        split; [by rewrite <- (assoc_L (++))|].
        intros ?. apply Hfull. lia.
Qed.

(** A record found for an id has the clue list lines 110-124 leave, which is
    not empty, and the title of the first clue of that list. *)
Lemma category_of_Some h f k categoryId c :
  category_of h f k categoryId = Some c →
  ∃ fetched first others,
    (searchClues h f k categoryId).2 = Some fetched ∧
    normalizedClues fetched = first :: others ∧
    clues c = first :: others ∧ title c = category_title first.
Proof.
  unfold category_of. destruct (searchClues h f k categoryId).2 as [cl|]; [|done].
  destruct (normalizedClues cl) as [|first others] eqn:Hnorm; [done|].
  intros [= <-]. by exists cl, first, others.
Qed.

Lemma found_elem h f k ids c :
  c ∈ found h f k ids →
  ∃ j categoryId, ids !! j = Some categoryId ∧ category_of h f (k + j) categoryId = Some c.
Proof.
  revert k. induction ids as [|categoryId ids IH]; intros k; [by intros ?%elem_of_nil|].
  simpl. destruct (category_of h f k categoryId) as [c'|] eqn:Hc'.
  - intros [->|Hc]%elem_of_cons.
    + exists 0%nat, categoryId. by rewrite Nat.add_0_r.
    + destruct (IH _ Hc) as (j & id & Hj & Hid). exists (S j), id.
      by rewrite Nat.add_succ_r.
  - intros Hc. destruct (IH _ Hc) as (j & id & Hj & Hid). exists (S j), id.
    by rewrite Nat.add_succ_r.
Qed.

End SearchMore.

Section SearchExtras.
Import App.

(** X1 (frame of [onSearch]): however a search ends, it leaves the filters,
    the search text, the answers and the favorites as they were.  When it is
    fulfilled the flag is down again and the storage holds the snapshot of
    the state it leaves.  When it is rejected the storage is as before; the
    categories are as before, and the flag up, unless it is [setItem] that
    threw, and then the state is that of a finished search: flag down. *)
Theorem onSearch_frame h w :
  filters (state (onSearch h w).1) = filters (state w) ∧
  searchText (state (onSearch h w).1) = searchText (state w) ∧
  answered (state (onSearch h w).1) = answered (state w) ∧
  favorites (state (onSearch h w).1) = favorites (state w) ∧
  ((onSearch h w).2 = Fulfilled →
     searching (state (onSearch h w).1) = false ∧
     setItem h (JSON_stringify h (state (onSearch h w).1)) = true ∧
     storage (onSearch h w).1 = Some (JSON_stringify h (state (onSearch h w).1))) ∧
  (∀ e, (onSearch h w).2 = Rejected e → storage (onSearch h w).1 = storage w) ∧
  (∀ e, (onSearch h w).2 = Rejected e → e ≠ StorageError →
     categories (state (onSearch h w).1) = categories (state w) ∧
     searching (state (onSearch h w).1) = true) ∧
  ((onSearch h w).2 = Rejected StorageError →
     searching (state (onSearch h w).1) = false ∧
     setItem h (JSON_stringify h (state (onSearch h w).1)) = false).
Proof.
  unfold onSearch.
  destruct (encodeURIComponent _ _) as [query|]; [|by repeat split].
  destruct (fetch_text _ _) as [html|]; [|by repeat split].
  destruct (for_categoryId _ _ _ _ _ _) as [reqs' [cs|]]; [|by repeat split].
  destruct (setItem _ _) eqn:Hset; simpl; rewrite ?Hset; repeat split; try done;
    congruence.
Qed.

Lemma onSearch_frame_witness :
  searching (state (onSearch Examples.answering Examples.started).1) = false ∧
  storage (onSearch Examples.answering Examples.started).1 =
    Some (JSON_stringify Examples.answering
            (state (onSearch Examples.answering Examples.started).1)) ∧
  categories (state (onSearch Examples.offline Examples.started).1) =
    categories (state Examples.started) ∧
  storage (onSearch Examples.offline Examples.started).1 = storage Examples.started ∧
  searching (state (onSearch Examples.full Examples.started).1) = false ∧
  storage (onSearch Examples.full Examples.started).1 = storage Examples.started.
Proof.
  destruct (onSearch_frame Examples.answering Examples.started)
    as (_ & _ & _ & _ & Hdone & _).
  destruct (onSearch_frame Examples.offline Examples.started)
    as (_ & _ & _ & _ & _ & Hoff_storage & Hoff & _).
  destruct (onSearch_frame Examples.full Examples.started)
    as (_ & _ & _ & _ & _ & Hfull_storage & _ & Hfull).
  destruct Hdone as (Hflag & _ & Hstored); [by vm_compute|].
  destruct (Hoff RetrievalError) as [Hcats _]; [by vm_compute|done|].
  destruct Hfull as [Hflag' _]; [by vm_compute|].
  split; [done|]. split; [done|]. split; [done|].
  split; [apply (Hoff_storage RetrievalError); by vm_compute|].
  split; [done|]. apply (Hfull_storage StorageError). by vm_compute.
Defined.

(** X2 (a search that is answered): when the search text can be encoded and
    every request is answered, the state [onSearch] leaves has the flag down
    and, as categories, the first 12 records found for the scraped ids; the
    search is fulfilled when the storage takes the snapshot of that state,
    and rejected by [setItem] when it does not. *)
Theorem onSearch_answered h w query html :
  encodeURIComponent h (searchText (state w)) = Some query →
  fetch_text h (searchUrl query) = Some html →
  (∀ j url, is_Some (fetch_json h j url)) →
  categories (state (onSearch h w).1) =
    take MAX_CATEGORIES (found h (filters (state w)) 0 (matchedIds html)) ∧
  searching (state (onSearch h w).1) = false ∧
  (onSearch h w).2 =
    (if setItem h (JSON_stringify h (state (onSearch h w).1))
     then Fulfilled else Rejected StorageError).
Proof.
  intros Hq Hhtml Hjson. unfold onSearch. simpl. rewrite Hq, Hhtml.
  destruct (for_categoryId_answered h (filters (state w)) (matchedIds html) 0 []
              (requests w ++ [searchUrl query]) Hjson) as (reqs' & cs & Hloop).
  rewrite Hloop.
  apply for_categoryId_Some in Hloop; [|unfold MAX_CATEGORIES; simpl; lia].
  destruct (setItem _ _) eqn:Hset; simpl; by rewrite Hset.
Qed.

Lemma onSearch_answered_witness :
  categories (state (onSearch Examples.full Examples.started).1) =
    take MAX_CATEGORIES
      (found Examples.full (filters (state Examples.started)) 0
         (matchedIds Examples.page2)) ∧
  searching (state (onSearch Examples.full Examples.started).1) = false ∧
  (onSearch Examples.full Examples.started).2 =
    (if setItem Examples.full
          (JSON_stringify Examples.full (state (onSearch Examples.full Examples.started).1))
     then Fulfilled else Rejected StorageError).
Proof.
  apply (onSearch_answered Examples.full Examples.started (lit "dogs") Examples.page2).
  - reflexivity.
  - reflexivity.
  - intros j url. by eexists.
Defined.

(** X3 (no request too many): a fulfilled search has requested the search
    page and then the clues of the first [m] scraped ids, one request an id
    and in page order; the categories it leaves are the records found for
    those [m] ids; and an id is left without a request only when the
    categories are 12 already. *)
Theorem onSearch_requests_stop h w w' :
  onSearch h w = (w', Fulfilled) →
  ∃ query html m,
    encodeURIComponent h (searchText (state w)) = Some query ∧
    fetch_text h (searchUrl query) = Some html ∧
    (m ≤ length (matchedIds html))%nat ∧
    requests w' =
      requests w ++ searchUrl query ::
        request_urls h (filters (state w)) 0 (take m (matchedIds html)) ∧
    categories (state w') = found h (filters (state w)) 0 (take m (matchedIds html)) ∧
    ((m < length (matchedIds html))%nat → length (categories (state w')) = 12%nat).
Proof.
  unfold onSearch.
  destruct (encodeURIComponent _ _) as [query|] eqn:Hq; [|done].
  destruct (fetch_text _ _) as [html|] eqn:Hhtml; [|done].
  destruct (for_categoryId _ _ _ _ _ _) as [reqs' [cs|]] eqn:Hloop; [|done].
  destruct (setItem _ _); [|done].
  intros [= <-]. simpl in *.
  destruct (for_categoryId_stops _ _ _ _ _ _ _ _ Hloop) as (m & Hm & -> & -> & Hfull).
  { unfold MAX_CATEGORIES. simpl. lia. }
  exists query, html, m. simpl.
  split; [done|]. split; [done|]. split; [done|].
  split; [by rewrite <- (assoc_L (++))|]. split; [done|]. exact Hfull.
Qed.

Lemma onSearch_requests_stop_witness :
  ∃ query html m,
    encodeURIComponent Examples.answering (searchText (state Examples.started)) = Some query ∧
    fetch_text Examples.answering (searchUrl query) = Some html ∧
    (m ≤ length (matchedIds html))%nat ∧
    requests (onSearch Examples.answering Examples.started).1 =
      requests Examples.started ++ searchUrl query ::
        request_urls Examples.answering (filters (state Examples.started)) 0
          (take m (matchedIds html)) ∧
    categories (state (onSearch Examples.answering Examples.started).1) =
      found Examples.answering (filters (state Examples.started)) 0
        (take m (matchedIds html)) ∧
    ((m < length (matchedIds html))%nat →
       length (categories (state (onSearch Examples.answering Examples.started).1)) = 12%nat).
Proof.
  apply (onSearch_requests_stop Examples.answering Examples.started).
  by vm_compute.
Defined.

(** X4 (what a category record is): every category a fulfilled search leaves
    has a clue list with no question text twice, sorted by value, every
    value a number, and its title is the category title of its first clue,
    the one of least value. *)
Theorem onSearch_categories_normalized h w w' c :
  onSearch h w = (w', Fulfilled) →
  c ∈ categories (state w') →
  NoDup (question <$> clues c) ∧
  StronglySorted value_le (clues c) ∧
  Forall numeric (clues c) ∧
  ∃ first others, clues c = first :: others ∧ title c = category_title first ∧
                  Forall (value_le first) others.
Proof.
  unfold onSearch.
  destruct (encodeURIComponent _ _) as [query|]; [|done].
  destruct (fetch_text _ _) as [html|]; [|done].
  destruct (for_categoryId _ _ _ _ _ _) as [reqs' [cs|]] eqn:Hloop; [|done].
  destruct (setItem _ _); [|done].
  intros [= <-]. simpl.
  apply for_categoryId_Some in Hloop; [|unfold MAX_CATEGORIES; simpl; lia].
  subst cs. intros Hc%(subseteq_take _ _ c)%found_elem.
  destruct Hc as (j & categoryId & _ & Hc).
  apply category_of_Some in Hc as (fetched & first & others & _ & Hnorm & Hclues & Htitle).
  rewrite Hclues, <- Hnorm.
  split; [apply normalizedClues_NoDup|].
  split; [apply normalizedClues_sorted|].
  split; [apply normalizedClues_numeric|].
  exists first, others. rewrite Hnorm. split; [done|]. split; [done|].
  pose proof (normalizedClues_sorted fetched) as Hsorted.
  rewrite Hnorm in Hsorted. by apply StronglySorted_inv in Hsorted as [_ ?].
Qed.

Lemma onSearch_categories_normalized_witness :
  NoDup (question <$> [Examples.clue "Q1" (Num 0); Examples.clue "Q2" (Num 100)]) ∧
  StronglySorted value_le [Examples.clue "Q1" (Num 0); Examples.clue "Q2" (Num 100)] ∧
  Forall numeric [Examples.clue "Q1" (Num 0); Examples.clue "Q2" (Num 100)] ∧
  ∃ first others,
    [Examples.clue "Q1" (Num 0); Examples.clue "Q2" (Num 100)] = first :: others ∧
    lit "a title" = category_title first ∧ Forall (value_le first) others.
Proof.
  apply (onSearch_categories_normalized Examples.answering Examples.started
           (onSearch Examples.answering Examples.started).1
           {| title := lit "a title";
              clues := [Examples.clue "Q1" (Num 0); Examples.clue "Q2" (Num 100)] |}).
  - by vm_compute.
  - vm_compute. by left.
Defined.

End SearchExtras.

(** ** Answers and the score *)

Section Score.
Import AppHandlers.

Lemma total_points_app l a : total_points (l ++ [a]) = total_points l + points a.
Proof.
  unfold total_points. induction l as [|b l IH]; simpl; [lia|]. rewrite IH. lia.
Qed.

Lemma total_size_app l a : total_size (l ++ [a]) = total_size l + Z.abs (points a).
Proof.
  unfold total_size. induction l as [|b l IH]; simpl; [lia|]. rewrite IH. lia.
Qed.

Lemma total_size_nonneg l : 0 ≤ total_size l.
Proof. unfold total_size. induction l as [|b l IH]; simpl; lia. Qed.

Lemma round_to_double_exact z : Z.abs z ≤ 2 ^ 53 → round_to_double z = Finite z.
Proof. intros Hz. unfold round_to_double. by rewrite (proj2 (Z.leb_le _ _) Hz). Qed.

(** The sum [reduce] makes of the values of the correct answers, as long as
    no addition has to round. *)
Lemma earnings_fold (l : list App.Answered) (s : Z) :
  Z.abs s + total_size l ≤ 2 ^ 53 →
  foldl add_value (Finite s)
    ((λ a, value (App.clue a)) <$>
       filter (λ a, truthy (value (App.clue a)) = true)
         (filter (λ a, App.answer a = answer (App.clue a)) l)) =
  Finite (s + total_points l).
Proof.
  revert s. induction l as [|a l IH]; intros s; simpl.
  - intros _. f_equal. lia.
  - pose proof (total_size_nonneg l) as Hl.
    rewrite filter_cons. unfold points.
    destruct (decide (App.answer a = answer (App.clue a))) as [Hok|Hno].
    + rewrite bool_decide_eq_true_2 by done. rewrite filter_cons.
      destruct (decide (truthy (value (App.clue a)) = true)) as [Ht|Hf].
      * simpl. destruct (value (App.clue a)) as [| |n]; [done..|].
        intros Hsize. cbn [ToNumber].
        rewrite (round_to_double_exact n), (round_to_double_exact (s + n)) by lia.
        rewrite IH by lia. f_equal. lia.
      * intros Hsize. rewrite IH.
        -- f_equal. destruct (value (App.clue a)) as [| |n]; [lia..|].
           destruct (decide (n = 0)) as [Hn|Hn]; [lia|].
           exfalso. apply Hf. simpl. by apply negb_true_iff, Z.eqb_neq.
        -- destruct (value (App.clue a)); lia.
    + rewrite bool_decide_eq_false_2 by done. intros Hsize.
      rewrite IH by lia. f_equal; lia.
Qed.

Lemma calculateEarnings_total st :
  total_size (App.answered st) ≤ 2 ^ 53 →
  calculateEarnings st = Finite (total_points (App.answered st)).
Proof.
  intros Hsize. unfold calculateEarnings, getCorrectAnswers.
  by rewrite earnings_fold.
Qed.

(** X5 (the score): as long as what the answers score, gains and losses
    taken together, stays within 2^53, where the additions of
    [calculateEarnings] do not round, the earnings are the sum, over the
    answers given, of the value of the clue for an answer that equals the
    answer of its clue to the letter, and of 0 for any other (and for a clue
    without value).  So [onAnswer] raises the earnings by the value of the
    clue when the text is the clue's answer and leaves them otherwise.  It
    always adds one to the answers counted, and one to the correct ones
    exactly when the text is the clue's answer.  The same clue answered
    twice scores twice. *)
Theorem onAnswer_score h w clue text :
  total_size (App.answered (App.state (onAnswer h w clue text))) ≤ 2 ^ 53 →
  calculateEarnings (App.state w) = Finite (total_points (App.answered (App.state w))) ∧
  calculateEarnings (App.state (onAnswer h w clue text)) =
    Finite (total_points (App.answered (App.state w)) +
            (if bool_decide (text = answer clue)
             then match value clue with Num n => n | _ => 0 end
             else 0)) ∧
  length (App.answered (App.state (onAnswer h w clue text))) =
    S (length (App.answered (App.state w))) ∧
  length (getCorrectAnswers (App.state (onAnswer h w clue text))) =
    (length (getCorrectAnswers (App.state w)) +
     (if bool_decide (text = answer clue) then 1 else 0))%nat.
Proof.
  intros Hsize. split; [|split; [|split]].
  - apply calculateEarnings_total. simpl in Hsize.
    rewrite total_size_app in Hsize. lia.
  - rewrite calculateEarnings_total by done. simpl. by rewrite total_points_app.
  - simpl. rewrite length_app. simpl. lia.
  - unfold getCorrectAnswers. simpl. rewrite filter_app, length_app, filter_cons.
    simpl. case_bool_decide; [rewrite decide_True by done|rewrite decide_False by done];
      simpl; lia.
Qed.

Lemma onAnswer_score_witness :
  calculateEarnings
    (App.state (onAnswer Examples.answering
                  (onAnswer Examples.answering Examples.started
                     (Examples.clue "Q1" (Num 200)) (lit "an answer"))
                  (Examples.clue "Q1" (Num 200)) (lit "an answer"))) =
  Finite 400.
Proof.
  destruct (onAnswer_score Examples.answering
              (onAnswer Examples.answering Examples.started
                 (Examples.clue "Q1" (Num 200)) (lit "an answer"))
              (Examples.clue "Q1" (Num 200)) (lit "an answer")) as (_ & Hafter & _).
  - by vm_compute.
  - exact Hafter.
Defined.

(** Beyond 2^53 the additions round, and with clue values of both signs the
    earnings depend on the order of the answers: 2^53 and 1 make 2^53, and
    of the values 2^53, 1 and -2^53 the sum kept is 0, not 1. *)
Example calculateEarnings_rounds :
  add_value (Finite (2 ^ 53)) (Num 1) = Finite (2 ^ 53) ∧
  add_value (Finite (2 ^ 53)) (Num 3) = Finite (2 ^ 53 + 4) ∧
  foldl add_value (Finite 0) [Num (2 ^ 53); Num 1; Num (- 2 ^ 53)] = Finite 0 ∧
  add_value (Finite (2 ^ 1023)) (Num (2 ^ 1023)) = Infinity false.
Proof. repeat split; by vm_compute. Qed.

(** X6 (what [onAnswer] and [toggleFavorite] store): after a search that a
    request (or the encoding of the text) rejected, the state either handler
    leaves still has the flag up and the categories from before the search;
    the storage then holds the snapshot of that state, flag up, when
    [setItem] takes it, and is as before the search when [setItem] throws. *)
Theorem handlers_store_flag h w w' e clue text :
  App.onSearch h w = (w', App.Rejected e) →
  e ≠ App.StorageError →
  App.searching (App.state (onAnswer h w' clue text)) = true ∧
  App.categories (App.state (onAnswer h w' clue text)) = App.categories (App.state w) ∧
  App.storage (onAnswer h w' clue text) =
    (if App.setItem h (App.JSON_stringify h (App.state (onAnswer h w' clue text)))
     then Some (App.JSON_stringify h (App.state (onAnswer h w' clue text)))
     else App.storage w) ∧
  App.searching (App.state (toggleFavorite h w' clue)) = true ∧
  App.categories (App.state (toggleFavorite h w' clue)) = App.categories (App.state w) ∧
  App.storage (toggleFavorite h w' clue) =
    (if App.setItem h (App.JSON_stringify h (App.state (toggleFavorite h w' clue)))
     then Some (App.JSON_stringify h (App.state (toggleFavorite h w' clue)))
     else App.storage w).
Proof.
  intros Hsearch He. destruct (onSearch_Rejected _ _ _ _ Hsearch He) as [Hstate Hstorage].
  simpl. rewrite Hstate, Hstorage. by repeat split.
Qed.

Lemma handlers_store_flag_witness :
  App.searching (App.state (onAnswer Examples.offline
                              (App.onSearch Examples.offline Examples.started).1
                              (Examples.clue "Q1" null) (lit "an answer"))) = true ∧
  App.storage (onAnswer Examples.offline
                 (App.onSearch Examples.offline Examples.started).1
                 (Examples.clue "Q1" null) (lit "an answer")) =
    (if App.setItem Examples.offline
          (App.JSON_stringify Examples.offline
             (App.state (onAnswer Examples.offline
                           (App.onSearch Examples.offline Examples.started).1
                           (Examples.clue "Q1" null) (lit "an answer"))))
     then Some (App.JSON_stringify Examples.offline
                  (App.state (onAnswer Examples.offline
                                (App.onSearch Examples.offline Examples.started).1
                                (Examples.clue "Q1" null) (lit "an answer"))))
     else App.storage Examples.started).
Proof.
  destruct (handlers_store_flag Examples.offline Examples.started
              (App.onSearch Examples.offline Examples.started).1 App.RetrievalError
              (Examples.clue "Q1" null) (lit "an answer")) as (Hf & _ & Hs & _);
    [by vm_compute|done|].
  by split.
Defined.

End Score.

(** ** Favorites *)

Section Favorites.
Import AppHandlers.

(** [some(fav => fav.question === q)] *)
Lemma existsb_question (q : jsstring) (l : list Clue) :
  existsb (λ fav, bool_decide (question fav = q)) l = bool_decide (q ∈ question <$> l).
Proof.
  induction l as [|c l IH]; simpl; [done|].
  rewrite IH. destruct (decide (question c = q)) as [<-|Hne].
  - rewrite bool_decide_eq_true_2 by done. simpl.
    symmetry. apply bool_decide_eq_true_2. by left.
  - rewrite bool_decide_eq_false_2 by done. simpl.
    apply bool_decide_ext. rewrite elem_of_cons.
    split; [intros ?; by right|intros [->|?]; done].
Qed.

Lemma questions_filter_ne (q : jsstring) (l : list Clue) :
  question <$> filter (λ fav, question fav ≠ q) l = filter (λ x, x ≠ q) (question <$> l).
Proof.
  induction l as [|c l IH]; [done|].
  rewrite fmap_cons, !filter_cons.
  destruct (decide (question c ≠ q)); [rewrite fmap_cons|]; by rewrite IH.
Qed.

(** The favorites [toggleFavorite] leaves. *)
Lemma toggleFavorite_favorites h w clue :
  App.favorites (App.state (toggleFavorite h w clue)) =
    if bool_decide (question clue ∈ question <$> App.favorites (App.state w))
    then filter (λ fav, question fav ≠ question clue) (App.favorites (App.state w))
    else App.favorites (App.state w) ++ [clue].
Proof. simpl. by rewrite existsb_question. Qed.

(** X7 (the toggle toggles): after [toggleFavorite] a card says of the clue
    the opposite of what it said before, whatever its other props are, and
    says of a clue with another question text what it said before. *)
Theorem toggleFavorite_flips h w clue category answered :
  CategoryCard.isFavorite
    (CategoryCard.mkProps category answered
       (App.favorites (App.state (toggleFavorite h w clue)))) (Some clue) =
  negb (CategoryCard.isFavorite
          (CategoryCard.mkProps category answered (App.favorites (App.state w)))
          (Some clue)) ∧
  ∀ other, question other ≠ question clue →
    CategoryCard.isFavorite
      (CategoryCard.mkProps category answered
         (App.favorites (App.state (toggleFavorite h w clue)))) (Some other) =
    CategoryCard.isFavorite
      (CategoryCard.mkProps category answered (App.favorites (App.state w)))
      (Some other).
Proof.
  unfold CategoryCard.isFavorite. cbn [CategoryCard.favorites].
  rewrite toggleFavorite_favorites.
  destruct (decide (question clue ∈ question <$> App.favorites (App.state w)))
    as [Hin|Hin].
  - rewrite (bool_decide_eq_true_2 _ Hin). split.
    + rewrite !existsb_question, (bool_decide_eq_true_2 _ Hin). simpl.
      apply bool_decide_eq_false_2.
      rewrite questions_filter_ne, list_elem_of_filter. by intros [? _].
    + intros other Hne. rewrite !existsb_question. apply bool_decide_ext.
      rewrite questions_filter_ne, list_elem_of_filter.
      split; [by intros [_ ?]|done].
  - rewrite (bool_decide_eq_false_2 _ Hin). split.
    + rewrite !existsb_question, (bool_decide_eq_false_2 _ Hin). simpl.
      apply bool_decide_eq_true_2. rewrite fmap_app, elem_of_app. right. by left.
    + intros other Hne. rewrite !existsb_question. apply bool_decide_ext.
      rewrite fmap_app, elem_of_app. simpl. rewrite list_elem_of_singleton.
      split; [by intros [?|?]|by left].
Qed.

Lemma toggleFavorite_flips_witness :
  CategoryCard.isFavorite
    (CategoryCard.mkProps Examples.seven []
       (App.favorites (App.state (toggleFavorite Examples.offline Examples.started
                                    (Examples.clue "Q1" null)))))
    (Some (Examples.clue "Q2" null)) =
  CategoryCard.isFavorite
    (CategoryCard.mkProps Examples.seven [] (App.favorites (App.state Examples.started)))
    (Some (Examples.clue "Q2" null)).
Proof.
  destruct (toggleFavorite_flips Examples.offline Examples.started
              (Examples.clue "Q1" null) Examples.seven []) as [_ Hother].
  apply Hother. by vm_compute.
Defined.

(** X8 (one favorite a question text): when no two favorites have the same
    question text, none have after [toggleFavorite]; and removing a favorite
    removes every favorite with its question text, leaving the others in
    their order. *)
Theorem toggleFavorite_NoDup h w clue :
  NoDup (question <$> App.favorites (App.state w)) →
  NoDup (question <$> App.favorites (App.state (toggleFavorite h w clue))).
Proof.
  intros Hnodup. rewrite toggleFavorite_favorites. case_bool_decide as Hin.
  - rewrite questions_filter_ne. by apply NoDup_filter.
  - rewrite fmap_app. apply NoDup_app. split; [done|]. split.
    + intros q Hq [->|[]%elem_of_nil]%elem_of_cons. done.
    + apply NoDup_singleton.
Qed.

Lemma toggleFavorite_NoDup_witness :
  NoDup (question <$> App.favorites
           (App.state (toggleFavorite Examples.offline Examples.started
                         (Examples.clue "Q1" null)))).
Proof.
  apply (toggleFavorite_NoDup Examples.offline Examples.started (Examples.clue "Q1" null)).
  vm_compute. constructor.
Defined.

Lemma filter_questions_id (q : jsstring) (l : list Clue) :
  q ∉ question <$> l → filter (λ fav, question fav ≠ q) l = l.
Proof.
  induction l as [|c l IH]; [done|].
  rewrite fmap_cons, not_elem_of_cons, filter_cons. intros [Hne Hin].
  rewrite decide_True by done. by rewrite IH.
Qed.

(** X9 (twice): toggling a clue that is no favorite twice gives the
    favorites back as they were; toggling one that is a favorite twice
    leaves it the last favorite, in place of every favorite that had its
    question text. *)
Theorem toggleFavorite_twice h w clue :
  (question clue ∉ question <$> App.favorites (App.state w) →
   App.favorites (App.state (toggleFavorite h (toggleFavorite h w clue) clue)) =
     App.favorites (App.state w)) ∧
  (question clue ∈ question <$> App.favorites (App.state w) →
   App.favorites (App.state (toggleFavorite h (toggleFavorite h w clue) clue)) =
     filter (λ fav, question fav ≠ question clue) (App.favorites (App.state w)) ++ [clue]).
Proof.
  split; intros Hin; rewrite !toggleFavorite_favorites.
  - rewrite (bool_decide_eq_false_2 _ Hin).
    rewrite bool_decide_eq_true_2 by (rewrite fmap_app, elem_of_app; right; by left).
    rewrite filter_app, filter_cons, decide_False by (by intros ?).
    rewrite filter_nil, app_nil_r.
    by apply filter_questions_id.
  - rewrite (bool_decide_eq_true_2 _ Hin).
    rewrite bool_decide_eq_false_2; [done|].
    rewrite questions_filter_ne, list_elem_of_filter. by intros [? _].
Qed.

Lemma toggleFavorite_twice_witness :
  App.favorites
    (App.state (toggleFavorite Examples.offline
                  (toggleFavorite Examples.offline Examples.started
                     (Examples.clue "Q1" null))
                  (Examples.clue "Q1" null))) =
  App.favorites (App.state Examples.started).
Proof.
  destruct (toggleFavorite_twice Examples.offline Examples.started
              (Examples.clue "Q1" null)) as [Hback _].
  apply Hback. vm_compute. by intros ?%elem_of_nil.
Defined.

End Favorites.

(** ** The card and the answers *)

Section CardAnswers.
Import CategoryCard.

(** The answers recorded for the id of [c]. *)
Lemma matched_app (c : Clue) (l : list App.Answered) (a : App.Answered) :
  filter (λ a, clue_id (App.clue a) = clue_id c) (l ++ [a]) =
  filter (λ a, clue_id (App.clue a) = clue_id c) l ++
    (if bool_decide (clue_id (App.clue a) = clue_id c) then [a] else []).
Proof.
  rewrite filter_app, filter_cons, filter_nil.
  by case_bool_decide; [rewrite decide_True by done|rewrite decide_False by done].
Qed.

Lemma primary_ne_success : lit "primary" ≠ lit "success".
Proof. by vm_compute. Qed.

Lemma primary_ne_danger : lit "primary" ≠ lit "danger".
Proof. by vm_compute. Qed.

Lemma success_ne_danger : lit "success" ≠ lit "danger".
Proof. by vm_compute. Qed.

(** What [markClue] says, by the answers recorded for the id of the clue. *)
Lemma markClue_Some category answered favorites c :
  markClue (mkProps category answered favorites) (Some c) =
    match filter (λ a, clue_id (App.clue a) = clue_id c) answered with
    | [] => lit "primary"
    | m => if existsb (λ a, bool_decide (App.answer a = answer c)) m
           then lit "success" else lit "danger"
    end.
Proof.
  unfold markClue. cbn [CategoryCard.answered].
  by destruct (filter _ answered).
Qed.

(** X10 (the colour of a clue): once [onAnswer] has recorded an answer for a
    clue, [markClue] no longer says primary for it, so the card shows the
    recorded answer and no answer field; it says success when the text is
    the clue's answer; a clue that is success stays success whatever is
    answered later; a wrong text for a clue not yet success gives danger;
    and clues with another id keep their colour. *)
Theorem markClue_after_onAnswer h w clue text category favorites :
  markClue (mkProps category (App.answered (App.state (AppHandlers.onAnswer h w clue text)))
              favorites) (Some clue) ≠ lit "primary" ∧
  (text = answer clue →
   markClue (mkProps category (App.answered (App.state (AppHandlers.onAnswer h w clue text)))
               favorites) (Some clue) = lit "success") ∧
  (∀ c, markClue (mkProps category (App.answered (App.state w)) favorites) (Some c) =
          lit "success" →
        markClue (mkProps category
                    (App.answered (App.state (AppHandlers.onAnswer h w clue text)))
                    favorites) (Some c) = lit "success") ∧
  (text ≠ answer clue →
   markClue (mkProps category (App.answered (App.state w)) favorites) (Some clue) ≠
     lit "success" →
   markClue (mkProps category (App.answered (App.state (AppHandlers.onAnswer h w clue text)))
               favorites) (Some clue) = lit "danger") ∧
  (∀ c, clue_id c ≠ clue_id clue →
        markClue (mkProps category
                    (App.answered (App.state (AppHandlers.onAnswer h w clue text)))
                    favorites) (Some c) =
        markClue (mkProps category (App.answered (App.state w)) favorites) (Some c)) ∧
  (∀ st, selectedClue st = Some clue →
         shows_answer_field
           (mkProps category (App.answered (App.state (AppHandlers.onAnswer h w clue text)))
              favorites) st = false).
Proof.
  cbn [AppHandlers.onAnswer AppHandlers.save AppHandlers.set_answered App.state App.answered].
  assert (markClue (mkProps category
            (App.answered (App.state w) ++ [{| App.clue := clue; App.answer := text |}])
            favorites) (Some clue) ≠ lit "primary") as Hanswered.
  { rewrite markClue_Some, matched_app. cbn [App.clue].
    rewrite bool_decide_eq_true_2 by done.
    destruct (filter _ (App.answered (App.state w))) as [|a m]; simpl.
    + destruct (bool_decide _); [apply not_eq_sym, primary_ne_success|
                                 apply not_eq_sym, primary_ne_danger].
    + destruct (_ || _); [apply not_eq_sym, primary_ne_success|
                          apply not_eq_sym, primary_ne_danger]. }
  split; [exact Hanswered|].
  split; [|split; [|split; [|split]]];
    [..|intros st Hsel; unfold shows_answer_field; rewrite Hsel;
        by apply bool_decide_eq_false_2];
    rewrite ?markClue_Some.
  - intros ->. rewrite matched_app. cbn [App.clue]. rewrite bool_decide_eq_true_2 by done.
    destruct (filter _ (App.answered (App.state w))) as [|a m]; simpl.
    + by rewrite bool_decide_eq_true_2.
    + rewrite existsb_app. simpl. rewrite (bool_decide_eq_true_2 (answer clue = answer clue)) by done.
      by rewrite !orb_true_r.
  - intros c. rewrite !markClue_Some, matched_app. cbn [App.clue].
    destruct (filter _ (App.answered (App.state w))) as [|a m].
    + by intros ?%primary_ne_success.
    + cbn [app]. destruct (existsb _ (a :: m)) eqn:Hsome.
      * intros _. change (a :: m ++ ?l) with ((a :: m) ++ l).
        rewrite existsb_app, Hsome. done.
      * intros Heq. symmetry in Heq. by apply success_ne_danger in Heq.
  - intros Hwrong. rewrite matched_app. cbn [App.clue].
    rewrite bool_decide_eq_true_2 by done.
    destruct (filter _ (App.answered (App.state w))) as [|a m].
    + intros _. simpl. by rewrite bool_decide_eq_false_2.
    + cbn [app]. destruct (existsb _ (a :: m)) eqn:Hsome; [done|].
      intros _. change (a :: m ++ ?l) with ((a :: m) ++ l).
      rewrite existsb_app, Hsome. simpl. by rewrite bool_decide_eq_false_2.
  - intros c Hid. rewrite !markClue_Some, matched_app. cbn [App.clue].
    rewrite bool_decide_eq_false_2 by done. by rewrite app_nil_r.
Qed.

Lemma markClue_after_onAnswer_witness :
  markClue (mkProps Examples.seven
              (App.answered (App.state (AppHandlers.onAnswer Examples.offline
                 Examples.started (Examples.clue "Q1" null) (lit "an answer"))))
              []) (Some (Examples.clue "Q1" null)) = lit "success".
Proof.
  destruct (markClue_after_onAnswer Examples.offline Examples.started
              (Examples.clue "Q1" null) (lit "an answer") Examples.seven [])
    as (_ & Hright & _).
  by apply Hright.
Defined.

(** X11 (the answer shown): [getMyAnswer] gives the first answer recorded
    for the id of the clue: after [onAnswer] for a clue nothing was recorded
    for, it is the text just given; an answer it gave before is the one it
    gives after any later [onAnswer]; and it gives none exactly when
    [markClue] says primary. *)
Theorem getMyAnswer_first h w clue text category favorites :
  (getMyAnswer (mkProps category (App.answered (App.state w)) favorites) clue = None →
   getMyAnswer
     (mkProps category (App.answered (App.state (AppHandlers.onAnswer h w clue text)))
        favorites) clue = Some text) ∧
  (∀ c first,
     getMyAnswer (mkProps category (App.answered (App.state w)) favorites) c = Some first →
     getMyAnswer
       (mkProps category (App.answered (App.state (AppHandlers.onAnswer h w clue text)))
          favorites) c = Some first) ∧
  (∀ c, getMyAnswer (mkProps category (App.answered (App.state w)) favorites) c = None ↔
        markClue (mkProps category (App.answered (App.state w)) favorites) (Some c) =
          lit "primary").
Proof.
  unfold getMyAnswer.
  cbn [AppHandlers.onAnswer AppHandlers.save AppHandlers.set_answered App.state
       App.answered CategoryCard.answered].
  split; [|split].
  - rewrite matched_app. cbn [App.clue]. rewrite bool_decide_eq_true_2 by done.
    by destruct (filter _ (App.answered (App.state w))).
  - intros c first. rewrite matched_app.
    by destruct (filter _ (App.answered (App.state w))).
  - intros c. rewrite markClue_Some.
    destruct (filter _ (App.answered (App.state w))) as [|a m]; [done|].
    simpl. split; [done|].
    destruct (_ || _); intros Heq; symmetry in Heq;
      [by apply primary_ne_success in Heq|by apply primary_ne_danger in Heq].
Qed.

Lemma getMyAnswer_first_witness :
  getMyAnswer
    (mkProps Examples.seven
       (App.answered (App.state (AppHandlers.onAnswer Examples.offline
          Examples.started (Examples.clue "Q1" null) (lit "a guess"))))
       []) (Examples.clue "Q1" null) = Some (lit "a guess").
Proof.
  destruct (getMyAnswer_first Examples.offline Examples.started
              (Examples.clue "Q1" null) (lit "a guess") Examples.seven [])
    as (Hfirst & _).
  by apply Hfirst.
Defined.

(** X12 (a round of the card): while a clue is selected, [setClue] unselects
    it whatever clue it is called with.  From a card with no clue selected,
    selecting a clue, typing a text and submitting calls [onAnswer] with
    that clue and that text and leaves the card as it was, with no clue
    selected and the answer field empty; [onAnswer] then records the two as
    the last of the answers. *)
Theorem submitAnswer_round h w st c text :
  (∀ selected c', selectedClue st = Some selected → selectedClue (setClue st c') = None) ∧
  (selectedClue st = None →
   (submitAnswer (onChange (setClue st (Some c)) text)).1 = (Some c, text) ∧
   (submitAnswer (onChange (setClue st (Some c)) text)).2 =
     {| state_category := state_category st; selectedClue := None; state_answer := [] |} ∧
   last (App.answered (App.state (AppHandlers.onAnswer h w c text))) =
     Some {| App.clue := c; App.answer := text |}).
Proof.
  split.
  - intros selected c' Hsel. simpl. by rewrite Hsel.
  - intros Hnone. simpl. rewrite Hnone. split; [done|]. split.
    + unfold setClue, onChange. simpl. by rewrite Hnone.
    + apply last_snoc.
Qed.

Lemma submitAnswer_round_witness :
  (submitAnswer (onChange (setClue Examples.card_state (Some (Examples.clue "Q1" null)))
                   (lit "a guess"))).1 = (Some (Examples.clue "Q1" null), lit "a guess") ∧
  (submitAnswer (onChange (setClue Examples.card_state (Some (Examples.clue "Q1" null)))
                   (lit "a guess"))).2 = Examples.card_state ∧
  last (App.answered (App.state (AppHandlers.onAnswer Examples.offline Examples.started
                                   (Examples.clue "Q1" null) (lit "a guess")))) =
    Some {| App.clue := Examples.clue "Q1" null; App.answer := lit "a guess" |}.
Proof.
  destruct (submitAnswer_round Examples.offline Examples.started Examples.card_state
              (Examples.clue "Q1" null) (lit "a guess")) as [_ Hround].
  by apply Hround.
Defined.

End CardAnswers.

(** ** The board *)

Section BoardAfterSearch.
Import App.

Lemma onSearch_Fulfilled_found h w w' :
  onSearch h w = (w', Fulfilled) →
  ∃ html, categories (state w') =
            take MAX_CATEGORIES (found h (filters (state w)) 0 (matchedIds html)).
Proof.
  unfold onSearch.
  destruct (encodeURIComponent _ _) as [query|]; [|done].
  destruct (fetch_text _ _) as [html|]; [|done].
  destruct (for_categoryId _ _ _ _ _ _) as [reqs' [cs|]] eqn:Hloop; [|done].
  destruct (setItem _ _); [|done].
  intros [= <-]. simpl. exists html.
  apply for_categoryId_Some in Hloop; [done|]. unfold MAX_CATEGORIES. simpl. lia.
Qed.

Lemma concat_length_bound {A} (n : nat) (ls : list (list A)) :
  Forall (λ l, (length l ≤ n)%nat) ls → (length (concat ls) ≤ n * length ls)%nat.
Proof.
  induction 1 as [|l ls Hl _ IH]; simpl; [lia|]. rewrite length_app. lia.
Qed.

(** The buttons of a mounted board: for each category in order, those of
    its first five clues. *)
Lemma mounted_buttons_lengths (props : Board.Props) :
  length <$> Board.mounted_buttons props =
  (λ c, length (clues c) `min` 5)%nat <$> Board.categories props.
Proof.
  unfold Board.mounted_buttons, Board.render, Board.constructor. simpl.
  rewrite <- !list_fmap_compose. apply list_fmap_ext. intros i c _. simpl.
  unfold CategoryCard.listItems. simpl. rewrite length_fmap, length_take. lia.
Qed.

(** X13 (the board after a search): a board mounted on the state a
    fulfilled search leaves has a card for each category and at most 12;
    every card has at least one clue button and at most five, those of the
    first clues of its category in order; so the board has at most 60. *)
Theorem board_after_search h w w' :
  onSearch h w = (w', Fulfilled) →
  length (Board.mounted_buttons (Board.of_App (state w'))) = length (categories (state w')) ∧
  (length (Board.mounted_buttons (Board.of_App (state w'))) ≤ 12)%nat ∧
  Forall (λ buttons, (1 ≤ length buttons ≤ 5)%nat)
    (Board.mounted_buttons (Board.of_App (state w'))) ∧
  (λ buttons, CategoryCard.onClick <$> buttons) <$>
    Board.mounted_buttons (Board.of_App (state w')) =
    (λ c, take 5 (clues c)) <$> categories (state w') ∧
  (length (concat (Board.mounted_buttons (Board.of_App (state w')))) ≤ 60)%nat.
Proof.
  intros [html Hcats]%onSearch_Fulfilled_found.
  pose proof (mounted_buttons_lengths (Board.of_App (state w'))) as Hlens.
  assert (length (Board.mounted_buttons (Board.of_App (state w'))) =
          length (categories (state w'))) as Hlen.
  { unfold Board.mounted_buttons, Board.render. by rewrite !length_fmap. }
  assert (length (categories (state w')) ≤ 12)%nat as Hcap.
  { rewrite Hcats, length_take. unfold MAX_CATEGORIES. lia. }
  assert (Forall (λ buttons : list CategoryCard.Button, (1 ≤ length buttons ≤ 5)%nat)
            (Board.mounted_buttons (Board.of_App (state w')))) as Hcards.
  { apply (Forall_fmap length (λ n, (1 ≤ n ≤ 5)%nat)). rewrite Hlens.
    apply Forall_fmap. simpl. rewrite Hcats.
    apply Forall_take. eapply Forall_impl; [apply found_nonempty|].
    intros c Hc. simpl in *. destruct (clues c); [done|]. simpl. lia. }
  split; [done|]. split; [lia|]. split; [done|]. split.
  - unfold Board.mounted_buttons, Board.render, Board.constructor. simpl.
    rewrite <- !list_fmap_compose. apply list_fmap_ext. intros i c _. simpl.
    unfold CategoryCard.listItems. simpl.
    rewrite <- list_fmap_compose. apply list_fmap_id.
  - etrans; [apply (concat_length_bound 5)|lia].
    eapply Forall_impl; [exact Hcards|]. simpl. lia.
Qed.

Lemma board_after_search_witness :
  length (Board.mounted_buttons
            (Board.of_App (state (onSearch Examples.answering Examples.started).1))) =
    length (categories (state (onSearch Examples.answering Examples.started).1)) ∧
  (length (Board.mounted_buttons
             (Board.of_App (state (onSearch Examples.answering Examples.started).1))) ≤ 12)%nat ∧
  Forall (λ buttons, (1 ≤ length buttons ≤ 5)%nat)
    (Board.mounted_buttons
       (Board.of_App (state (onSearch Examples.answering Examples.started).1))) ∧
  (λ buttons, CategoryCard.onClick <$> buttons) <$>
    Board.mounted_buttons
      (Board.of_App (state (onSearch Examples.answering Examples.started).1)) =
    (λ c, take 5 (clues c)) <$>
      categories (state (onSearch Examples.answering Examples.started).1) ∧
  (length (concat (Board.mounted_buttons
             (Board.of_App (state (onSearch Examples.answering Examples.started).1)))) ≤ 60)%nat.
Proof.
  apply (board_after_search Examples.answering Examples.started).
  by vm_compute.
Defined.

End BoardAfterSearch.

(** ** The filters and the requests *)

Section FilterRequests.
Import App.

(** The query of a clues request read back as parameters. *)
Lemma query_params_constructedUrl (now_iso : jsstring) (f : Filters) (categoryId : jsstring) :
  38%N ∉ or_else (max_date f) now_iso →
  38%N ∉ or_else (min_date f) epoch →
  38%N ∉ categoryId →
  38%N ∉ value f →
  query_params (constructedUrl now_iso f categoryId) =
    [(lit "max_date", or_else (max_date f) now_iso);
     (lit "min_date", or_else (min_date f) epoch);
     (lit "category", categoryId)] ++
    (if bool_decide (value f = lit "any") then [] else [(lit "value", value f)]).
Proof.
  intros Hmax Hmin Hid Hvalue.
  unfold query_params, constructedUrl, searchClues_parts. cbn [join].
  change (lit "http://jservice.io/api/clues?")
    with (lit "http://jservice.io/api/clues" ++ [63%N]).
  rewrite <- (assoc_L (++) (lit "http://jservice.io/api/clues")).
  rewrite after_app_sep by decide_now.
  change (lit "&") with [38%N].
  change (lit "max_date=") with (lit "max_date" ++ [61%N]).
  change (lit "min_date=") with (lit "min_date" ++ [61%N]).
  change (lit "category=") with (lit "category" ++ [61%N]).
  change (lit "value=") with (lit "value" ++ [61%N]).
  rewrite !split_on_app_sep by (apply param_amp_free; [decide_now|done]).
  rewrite !filter_cons_True by apply param_nonempty.
  rewrite !fmap_cons, !param_read by decide_now.
  case_bool_decide as Hany.
  + simpl split_on. by rewrite filter_cons_False by (by intros []).
  + rewrite split_on_whole by (apply param_amp_free; [decide_now|done]).
    rewrite filter_cons_True by apply param_nonempty.
    rewrite filter_nil, !fmap_cons, param_read by decide_now. done.
Qed.

Lemma request_urls_elem h f k ids u :
  u ∈ request_urls h f k ids →
  ∃ j categoryId, categoryId ∈ ids ∧ u = constructedUrl (now h (k + j)) f categoryId.
Proof.
  revert k. induction ids as [|categoryId ids IH]; intros k; [by intros ?%elem_of_nil|].
  simpl. intros [->|Hu]%elem_of_cons.
  - exists 0%nat, categoryId. rewrite Nat.add_0_r. split; [by left|done].
  - destruct (IH _ Hu) as (j & id & Hid & ->). exists (S j), id.
    rewrite Nat.add_succ_r. split; [by right|done].
Qed.

(** What a search adds to the requests, however it ends: the search page
    first, if anything, and then clues requests for scraped ids. *)
Lemma onSearch_requests h w :
  ∃ added, requests (onSearch h w).1 = requests w ++ added ∧
    ∀ u, u ∈ drop 1 added →
      ∃ html k categoryId,
        categoryId ∈ matchedIds html ∧
        u = constructedUrl (now h k) (filters (state w)) categoryId.
Proof.
  unfold onSearch.
  destruct (encodeURIComponent _ _) as [query|].
  2: { exists []. simpl. rewrite app_nil_r. split; [done|]. by intros u ?%elem_of_nil. }
  destruct (fetch_text _ _) as [html|].
  2: { exists [searchUrl query]. simpl. split; [done|]. by intros u ?%elem_of_nil. }
  simpl.
  destruct (for_categoryId_requests h (filters (state w)) (matchedIds html) 0 []
              (requests w ++ [searchUrl query])) as (m & _ & Hreqs).
  destruct (for_categoryId _ _ _ _ _ _) as [reqs' [cs|]]; simpl in Hreqs; subst reqs';
    [destruct (setItem _ _)|];
    (exists (searchUrl query :: request_urls h (filters (state w)) 0 (take m (matchedIds html)));
     simpl; split; [by rewrite <- (assoc_L (++))|];
     rewrite drop_0; intros u (j & id & Hid & ->)%request_urls_elem;
     exists html, (0 + j)%nat, id; split; [|done];
     by apply (subseteq_take m)).
Qed.

Lemma with_property_value v f :
  AppHandlers.with_property (lit "value") v f =
    {| min_date := min_date f; max_date := max_date f; value := v |}.
Proof. reflexivity. Qed.

Lemma with_property_max_date v f :
  AppHandlers.with_property (lit "max_date") v f =
    {| min_date := min_date f; max_date := Some v; value := value f |}.
Proof. reflexivity. Qed.

Lemma with_property_min_date v f :
  AppHandlers.with_property (lit "min_date") v f =
    {| min_date := Some v; max_date := max_date f; value := value f |}.
Proof. reflexivity. Qed.

Lemma for_categoryId_requests_first h f ids k cats reqs :
  ∃ m, (m ≤ length ids)%nat ∧ (ids ≠ [] → (1 ≤ m)%nat) ∧
       (for_categoryId h f k ids cats reqs).1 = reqs ++ request_urls h f k (take m ids).
Proof.
  destruct ids as [|categoryId ids].
  - exists 0%nat. simpl. by rewrite app_nil_r.
  - cbn [for_categoryId]. unfold searchClues. cbn [fst snd].
    destruct (fetch_json h k _) as [cl|].
    2: { exists 1%nat. simpl. split; [lia|done]. }
    assert (∀ cats', ∃ m, (m ≤ length (categoryId :: ids))%nat ∧
      (categoryId :: ids ≠ [] → (1 ≤ m)%nat) ∧
      (for_categoryId h f (S k) ids cats'
         (reqs ++ [constructedUrl (now h k) f categoryId])).1 =
      reqs ++ request_urls h f k (take m (categoryId :: ids))) as Hrest.
    { intros cats'.
      destruct (for_categoryId_requests h f ids (S k) cats'
                  (reqs ++ [constructedUrl (now h k) f categoryId])) as (m & Hm & ->).
      exists (S m). simpl. split; [lia|]. split; [lia|]. by rewrite <- (assoc_L (++)). }
    destruct (normalizedClues cl) as [|first others]; [apply Hrest|].
    case_bool_decide; [|apply Hrest].
    exists 1%nat. simpl. split; [lia|done].
Qed.

Lemma request_urls_length h f k ids : length (request_urls h f k ids) = length ids.
Proof. revert k. induction ids as [|id ids IH]; intros k; simpl; [done|]. by rewrite IH. Qed.

Lemma request_urls_lookup h f k ids j categoryId :
  ids !! j = Some categoryId →
  request_urls h f k ids !! j = Some (constructedUrl (now h (k + j)) f categoryId).
Proof.
  revert k j. induction ids as [|id ids IH]; intros k j; [done|].
  destruct j as [|j]; simpl.
  - intros [= ->]. by rewrite Nat.add_0_r.
  - intros Hj. rewrite (IH (S k) j Hj). by rewrite Nat.add_succ_r.
Qed.

Lemma onSearch_filters h w : filters (state (onSearch h w).1) = filters (state w).
Proof.
  unfold onSearch.
  destruct (encodeURIComponent _ _) as [query|]; [|done].
  destruct (fetch_text _ _) as [html|]; [|done].
  destruct (for_categoryId _ _ _ _ _ _) as [reqs' [cs|]]; [|done].
  by destruct (setItem _ _).
Qed.

(** X14 (picking a value): [selectValue] sets the value of the filters and
    runs a search.  When the search page is fetched, the search requests,
    after the page, the clues of the scraped ids in their order: of the
    first [m] of them, at least of the first when there is one.  The j-th of
    these requests carries the value picked: its query is [max_date],
    [min_date], [category] with the j-th scraped id and, unless the value
    picked is any, [value] with that value; for any there is no [value]
    parameter.  (No ampersand is in the dates and the value.) *)
Theorem selectValue_requests h w v query html :
  encodeURIComponent h (searchText (state w)) = Some query →
  fetch_text h (searchUrl query) = Some html →
  (∀ k, 38%N ∉ or_else (max_date (filters (state w))) (now h k)) →
  38%N ∉ or_else (min_date (filters (state w))) epoch →
  38%N ∉ v →
  value (filters (state (AppHandlers.selectValue h w (lit "value") v).1)) = v ∧
  ∃ m added,
    (m ≤ length (matchedIds html))%nat ∧
    (matchedIds html ≠ [] → (1 ≤ m)%nat) ∧
    requests (AppHandlers.selectValue h w (lit "value") v).1 =
      requests w ++ searchUrl query :: added ∧
    length added = m ∧
    ∀ j categoryId, (j < m)%nat → matchedIds html !! j = Some categoryId →
      ∃ u, added !! j = Some u ∧
        query_params u =
          [(lit "max_date", or_else (max_date (filters (state w))) (now h j));
           (lit "min_date", or_else (min_date (filters (state w))) epoch);
           (lit "category", categoryId)] ++
          (if bool_decide (v = lit "any") then [] else [(lit "value", v)]).
Proof.
  intros Hquery Hhtml Hmax Hmin Hv. unfold AppHandlers.selectValue.
  split; [by rewrite onSearch_filters|].
  set (f := AppHandlers.with_property (lit "value") v (filters (state w))).
  destruct (for_categoryId_requests_first h f (matchedIds html) 0 []
              (requests w ++ [searchUrl query])) as (m & Hm & Hfirst & Hreqs).
  exists m, (request_urls h f 0 (take m (matchedIds html))).
  split; [done|]. split; [done|]. split; [|split].
  - unfold onSearch. cbn [state AppHandlers.set_filters set_searching searchText filters
                          requests storage].
    rewrite Hquery, Hhtml. fold f.
    destruct (for_categoryId _ _ _ _ _ _) as [reqs' [cs|]]; simpl in Hreqs; subst reqs';
      [destruct (setItem _ _)|]; simpl; by rewrite <- (assoc_L (++)).
  - rewrite request_urls_length, length_take. lia.
  - intros j categoryId Hj Hid. eexists. split.
    + apply request_urls_lookup. by rewrite lookup_take_lt.
    + unfold f. rewrite with_property_value.
      rewrite query_params_constructedUrl; [done|by apply Hmax|done| |done].
      eapply matchedIds_amp_free. by eapply list_elem_of_lookup_2.
Qed.

Lemma selectValue_requests_witness :
  ∃ m added,
    (1 ≤ m)%nat ∧
    requests (AppHandlers.selectValue Examples.answering Examples.started
                (lit "value") (lit "300")).1 =
      requests Examples.started ++ searchUrl (lit "dogs") :: added ∧
    ∃ u, added !! 0%nat = Some u ∧
      query_params u =
        [(lit "max_date", lit "2020-05-17T10:00:00.000Z");
         (lit "min_date", epoch);
         (lit "category", lit "1");
         (lit "value", lit "300")].
Proof.
  destruct (selectValue_requests Examples.answering Examples.started (lit "300")
              (lit "dogs") Examples.page14) as (_ & m & added & _ & Hm & Hreqs & _ & Hurls).
  - reflexivity.
  - reflexivity.
  - intros k. decide_now.
  - decide_now.
  - decide_now.
  - assert (1 ≤ m)%nat as Hone by (apply Hm; by vm_compute).
    exists m, added. split; [done|]. split; [done|].
    apply (Hurls 0%nat (lit "1")); [lia|by vm_compute].
Defined.

(** X15 (the date fields): [onFilterChange] neither stores nor requests
    anything and leaves all of the state but the filters: the search text,
    the categories, the answers, the favorites and the flag are as before.
    Of the filters the To field sets [max_date] alone and the From field
    [min_date] alone.  After it, a clues request has the text of the To
    field for [max_date], and that of the From field for [min_date]; with
    the field emptied it has the current time, and the epoch, as with the
    date never set.  (No ampersand is in the texts.) *)
Theorem onFilterChange_dates w d now_iso categoryId :
  (∀ name,
     storage (AppHandlers.onFilterChange w name d) = storage w ∧
     requests (AppHandlers.onFilterChange w name d) = requests w ∧
     searchText (state (AppHandlers.onFilterChange w name d)) = searchText (state w) ∧
     categories (state (AppHandlers.onFilterChange w name d)) = categories (state w) ∧
     answered (state (AppHandlers.onFilterChange w name d)) = answered (state w) ∧
     favorites (state (AppHandlers.onFilterChange w name d)) = favorites (state w) ∧
     searching (state (AppHandlers.onFilterChange w name d)) = searching (state w)) ∧
  filters (state (AppHandlers.onFilterChange w (lit "max_date") d)) =
    {| min_date := min_date (filters (state w)); max_date := Some d;
       value := value (filters (state w)) |} ∧
  filters (state (AppHandlers.onFilterChange w (lit "min_date") d)) =
    {| min_date := Some d; max_date := max_date (filters (state w));
       value := value (filters (state w)) |} ∧
  (38%N ∉ d → 38%N ∉ now_iso → 38%N ∉ categoryId → 38%N ∉ value (filters (state w)) →
   38%N ∉ or_else (min_date (filters (state w))) epoch →
   query_params
     (constructedUrl now_iso
        (filters (state (AppHandlers.onFilterChange w (lit "max_date") d))) categoryId) =
     [(lit "max_date", if bool_decide (d = []) then now_iso else d);
      (lit "min_date", or_else (min_date (filters (state w))) epoch);
      (lit "category", categoryId)] ++
     (if bool_decide (value (filters (state w)) = lit "any") then []
      else [(lit "value", value (filters (state w)))])) ∧
  (38%N ∉ d → 38%N ∉ categoryId → 38%N ∉ value (filters (state w)) →
   38%N ∉ or_else (max_date (filters (state w))) now_iso →
   query_params
     (constructedUrl now_iso
        (filters (state (AppHandlers.onFilterChange w (lit "min_date") d))) categoryId) =
     [(lit "max_date", or_else (max_date (filters (state w))) now_iso);
      (lit "min_date", if bool_decide (d = []) then epoch else d);
      (lit "category", categoryId)] ++
     (if bool_decide (value (filters (state w)) = lit "any") then []
      else [(lit "value", value (filters (state w)))])).
Proof.
  split; [done|]. split; [done|]. split; [done|]. split.
  - intros Hd Hnow Hid Hvalue Hmin.
    cbn [AppHandlers.onFilterChange state AppHandlers.set_filters filters].
    rewrite with_property_max_date.
    rewrite query_params_constructedUrl; cbn [max_date min_date value]; [|..|done|done].
    + by destruct d.
    + by destruct d.
    + done.
  - intros Hd Hid Hvalue Hmax.
    cbn [AppHandlers.onFilterChange state AppHandlers.set_filters filters].
    rewrite with_property_min_date.
    rewrite query_params_constructedUrl; cbn [max_date min_date value]; [|done|..|done|done].
    + by destruct d.
    + destruct d; [decide_now|done].
Qed.

Lemma onFilterChange_dates_witness :
  query_params
    (constructedUrl (lit "2020-05-17T10:00:00.000Z")
       (filters (state (AppHandlers.onFilterChange Examples.started (lit "max_date") [])))
       (lit "7")) =
  [(lit "max_date", lit "2020-05-17T10:00:00.000Z");
   (lit "min_date", epoch);
   (lit "category", lit "7")].
Proof.
  destruct (onFilterChange_dates Examples.started [] (lit "2020-05-17T10:00:00.000Z")
              (lit "7")) as (_ & _ & _ & Hmax & _).
  apply Hmax; decide_now.
Defined.

End FilterRequests.

(** ** The search text *)

Section SearchText.
Import App.

(** X18 (the text searched for): a search after [onSearchTextChange]
    requests first the search page for the text typed, encoded; if the text
    cannot be encoded the search is rejected before any request, with the
    flag up and nothing stored.  [onSearchTextChange] itself neither
    requests nor stores. *)
Theorem onSearch_after_typing h w v :
  requests (AppHandlers.onSearchTextChange w v) = requests w ∧
  storage (AppHandlers.onSearchTextChange w v) = storage w ∧
  (∀ query, encodeURIComponent h v = Some query →
     ∃ rest, requests (onSearch h (AppHandlers.onSearchTextChange w v)).1 =
               requests w ++ searchUrl query :: rest) ∧
  (encodeURIComponent h v = None →
     onSearch h (AppHandlers.onSearchTextChange w v) =
       ({| state := set_searching true (state (AppHandlers.onSearchTextChange w v));
            storage := storage w; requests := requests w |}, Rejected URIError)).
Proof.
  split; [done|]. split; [done|]. split.
  - intros query Hq. unfold onSearch. simpl. rewrite Hq.
    destruct (fetch_text _ _) as [html|]; [|by exists []].
    destruct (for_categoryId_requests h (filters (state w)) (matchedIds html) 0 []
                (requests w ++ [searchUrl query])) as (m & _ & Hreqs).
    simpl in Hreqs.
    destruct (for_categoryId _ _ _ _ _ _) as [reqs' [cs|]]; simpl in *; subst reqs';
      [destruct (setItem _ _)|]; eexists; simpl; by rewrite <- (assoc_L (++)).
  - intros Hq. unfold onSearch. simpl. by rewrite Hq.
Qed.

Lemma onSearch_after_typing_witness :
  ∃ rest, requests (onSearch Examples.answering
                      (AppHandlers.onSearchTextChange Examples.started (lit "cats"))).1 =
            requests Examples.started ++ searchUrl (lit "cats") :: rest.
Proof.
  destruct (onSearch_after_typing Examples.answering Examples.started (lit "cats"))
    as (_ & _ & Hfirst & _).
  by apply Hfirst.
Defined.

End SearchText.
